(** * findaction.py: locating the usages of a GitHub Action in an organization

    A shallow embedding of [src/findaction.py] and the verification of its
    specification.  The program searches the workflow files of an
    organization, fetches each candidate, parses it as YAML, extracts the
    steps whose [uses] field mentions the target action and writes a report.

    Conventions of the embedding.
    - A Python [str] is a [string] holding the UTF-8 bytes of the text.
      Substring tests and lexicographic comparison on UTF-8 bytes agree with
      the same operations on code points.
    - The value a YAML parser hands back is untyped; it is embedded as the
      inductive type [value], and every Python operation the program applies
      to such a value is a function that may raise.
    - Exceptions are values of type [exn]; a computation that may raise has a
      result in [res].
    - Effects (console output, HTTP requests, sleeping, the report file) are
      recorded as a trace of [event]s; the remote service and the libraries
      the program calls are parameters of the development.

    Assumptions of the embedding.
    - The JSON bodies of the remote service are taken at the types the
      service documents: a body is an object whose [message], [encoding] and
      [content] members, when present, are strings, and whose [items], when
      present, is a list of objects that have the three members [main] reads.
      A body that is not JSON is an exception of [response.json()].
    - Among the values of [yaml.safe_load], timestamps, binary data and sets
      are left out.
    - [len] counts code points and [String.length] bytes; they agree on the
      ASCII names repositories have.
    - Opening, writing and closing the report file do not fail. *)

From Stdlib Require Import String Ascii List ZArith Lia Bool PrimFloat.
From Stdlib Require Import DecimalString Permutation Sorted Mergesort OrdersEx.
From Stdlib Require Import RelationClasses.
Import ListNotations.
Local Open Scope string_scope.
Set Warnings "-register-all".

(** ** Text primitives *)

(** Python's [needle in hay] on two strings. *)
Fixpoint contains (needle hay : string) : bool :=
  if String.prefix needle hay then true
  else match hay with
       | EmptyString => false
       | String _ rest => contains needle rest
       end.

(** [str.lower], on the ASCII letters. *)
Definition lower_ascii (c : ascii) : ascii :=
  let n := nat_of_ascii c in
  if (65 <=? n)%nat && (n <=? 90)%nat then ascii_of_nat (n + 32) else c.

Fixpoint lower (s : string) : string :=
  match s with
  | EmptyString => EmptyString
  | String c rest => String (lower_ascii c) (lower rest)
  end.

(** [os.path.basename] (posixpath): what follows the last slash. *)
Fixpoint basename (p : string) : string :=
  match p with
  | EmptyString => EmptyString
  | String c rest =>
      if contains "/" rest then basename rest
      else if Ascii.eqb c "/" then rest else p
  end.

(** The decimal rendering an f-string gives a non-negative [int]. *)
Definition str_of_nat (n : nat) : string :=
  NilEmpty.string_of_uint (Nat.to_uint n).

Definition str_of_Z (z : Z) : string :=
  NilZero.string_of_int (Z.to_int z).

(** ['-' * n] *)
Fixpoint dashes (n : nat) : string :=
  match n with
  | O => EmptyString
  | S k => String "-" (dashes k)
  end.

(** ** Untyped values

    What [yaml.safe_load] returns: [None], booleans, integers, floats,
    strings, sequences and mappings.  A mapping keeps its entries in document
    order, as a Python [dict] does. *)

Inductive value : Type :=
| VNone
| VBool (b : bool)
| VInt (z : Z)
| VFloat (f : float)
| VStr (s : string)
| VList (elements : list value)
| VDict (entries : list (value * value)).

(** ** The remote service *)

(** One search hit: the members of a result item that [main] reads. *)
Record candidate : Type := mkCandidate {
  item_repository : string;     (* item['repository']['full_name'] *)
  item_path : string;           (* item['path'] *)
  item_url : string             (* item['url'] *)
}.

(** A decoded JSON body, seen through the members the program reads. *)
Record json_body : Type := mkBody {
  json_message : option string;
  json_items : option (list candidate);
  json_encoding : option string;
  json_content : option string
}.

(** An exception raised inside a library (requests, yaml, base64, [int]);
    all of them derive from [Exception]. *)
Record library_error : Type := mkLibraryError {
  error_class : string;
  error_text : string
}.

Record response : Type := mkResponse {
  status_code : Z;
  text : string;
  x_ratelimit_reset : option string;        (* headers.get('X-RateLimit-Reset') *)
  json : library_error + json_body          (* response.json() *)
}.

(** ** Exceptions *)

Inductive exn : Type :=
| TypeError
| KeyError (key : string)
| AttributeError
| HTTPError (r : response)       (* requests.exceptions.HTTPError, with e.response *)
| LibraryError (e : library_error)
| SystemExit (code : Z).

(** [SystemExit] derives from [BaseException] only; the others from [Exception]. *)
Definition is_Exception (e : exn) : bool :=
  match e with
  | SystemExit _ => false
  | _ => true
  end.

Definition is_HTTPError (e : exn) : bool :=
  match e with
  | HTTPError _ => true
  | _ => false
  end.

(** The result of a computation that may raise: [inl] is the exception. *)
Definition res (A : Type) : Type := (exn + A)%type.

(** ** Monads *)

Class Monad (M : Type -> Type) : Type := {
  ret : forall {A : Type}, A -> M A;
  bind : forall {A B : Type}, M A -> (A -> M B) -> M B
}.

Declare Scope monad_scope.
Delimit Scope monad_scope with monad.
Notation "x <- c1 ;; c2" := (bind c1 (fun x => c2))
  (at level 61, c1 at next level, right associativity) : monad_scope.
Notation "c1 ;; c2" := (bind c1 (fun _ => c2))
  (at level 61, right associativity) : monad_scope.
Local Open Scope monad_scope.

#[global] Instance Monad_res : Monad res := {
  ret := fun A a => inr a;
  bind := fun A B m k => match m with
                         | inl e => inl e
                         | inr a => k a
                         end
}.

Definition raise {A : Type} (e : exn) : res A := inl e.

(** A [for] loop that threads the loop-carried state and stops at the first
    exception. *)
Fixpoint for_each {M : Type -> Type} `{Monad M} {S A : Type}
    (body : S -> A -> M S) (xs : list A) (s : S) : M S :=
  match xs with
  | [] => ret s
  | x :: rest => s' <- body s x ;; for_each body rest s'
  end.

(** [enumerate(xs, start)] *)
Fixpoint enumerate_from {A : Type} (start : nat) (xs : list A) : list (nat * A) :=
  match xs with
  | [] => []
  | x :: rest => (start, x) :: enumerate_from (S start) rest
  end.

Definition enumerate {A : Type} (xs : list A) : list (nat * A) :=
  enumerate_from 0 xs.

(** ** Python operations on untyped values *)

Definition is_str (s : string) (v : value) : bool :=
  match v with
  | VStr t => String.eqb s t
  | _ => false
  end.

(** [d[key]] on the entries of a mapping, for a string key. *)
Fixpoint lookup (key : string) (entries : list (value * value)) : option value :=
  match entries with
  | [] => None
  | (k, v) :: rest => if is_str key k then Some v else lookup key rest
  end.

(** Truth value of an object, as [if] and [and] test it. *)
Definition truthy (v : value) : bool :=
  match v with
  | VNone => false
  | VBool b => b
  | VInt z => negb (Z.eqb z 0)
  | VFloat f => negb (PrimFloat.eqb f 0%float)
  | VStr s => negb (String.eqb s "")
  | VList l => match l with [] => false | _ => true end
  | VDict d => match d with [] => false | _ => true end
  end.

(** [needle in container]: substring of a string, element of a sequence, key
    of a mapping; a [TypeError] on anything else. *)
Definition py_contains (needle : string) (container : value) : res bool :=
  match container with
  | VStr s => ret (contains needle s)
  | VList l => ret (existsb (is_str needle) l)
  | VDict d => ret (match lookup needle d with Some _ => true | None => false end)
  | _ => raise TypeError
  end.

(** [container[key]] for a string key. *)
Definition py_getitem (container : value) (key : string) : res value :=
  match container with
  | VDict d => match lookup key d with
               | Some v => ret v
               | None => raise (KeyError key)
               end
  | _ => raise TypeError
  end.

(** [container.get(key, default)] *)
Definition py_get (container : value) (key : string) (default : value) : res value :=
  match container with
  | VDict d => match lookup key d with
               | Some v => ret v
               | None => ret default
               end
  | _ => raise AttributeError
  end.

(** [container.items()] *)
Definition py_items (container : value) : res (list (value * value)) :=
  match container with
  | VDict d => ret d
  | _ => raise AttributeError
  end.

(** The elements a [for] loop draws from an object: the elements of a
    sequence, the characters of a string, the keys of a mapping. *)
Definition py_iter (v : value) : res (list value) :=
  match v with
  | VList l => ret l
  | VStr s => ret (map (fun c => VStr (String c EmptyString)) (list_ascii_of_string s))
  | VDict d => ret (map fst d)
  | _ => raise TypeError
  end.

(** ** The workflow analyzer: the loops of [analyze_workflow_content] *)

(** The dictionary appended to [instances]. *)
Record instance : Type := mkInstance {
  job : value;
  step_name : value;
  action_ref : value;
  inputs : value
}.

(** Body of [for step_index, step in enumerate(job_config['steps'])]. *)
Definition analyze_step (action_name : string) (job_name : value)
    (instances : list instance) (entry : nat * value) : res (list instance) :=
  let '(step_index, step) := entry in
  has_uses <- py_contains "uses" step ;;
  hit <- (if has_uses : bool
          then uses <- py_getitem step "uses" ;; py_contains action_name uses
          else ret false) ;;
  if hit : bool then
    step_name <- py_get step "name" (VStr ("Step " ++ str_of_nat (step_index + 1))) ;;
    action_ref <- py_getitem step "uses" ;;
    step_inputs <- py_get step "with" (VDict []) ;;
    ret (instances ++ [ {| job := job_name;
                           step_name := step_name;
                           action_ref := action_ref;
                           inputs := step_inputs |} ])%list
  else ret instances.

(** Body of [for job_name, job_config in workflow_data['jobs'].items()]. *)
Definition analyze_job (action_name : string)
    (instances : list instance) (entry : value * value) : res (list instance) :=
  let '(job_name, job_config) := entry in
  has_steps <- py_contains "steps" job_config ;;
  if has_steps : bool then
    steps <- py_getitem job_config "steps" ;;
    sequence <- py_iter steps ;;
    for_each (analyze_step action_name job_name) (enumerate sequence) instances
  else ret instances.

(** What the [try] block computes once the text is parsed. *)
Definition find_instances (action_name : string) (workflow_data : value)
    : res (list instance) :=
  has_jobs <- (if truthy workflow_data
               then py_contains "jobs" workflow_data
               else ret false) ;;
  if has_jobs : bool then
    jobs <- py_getitem workflow_data "jobs" ;;
    entries <- py_items jobs ;;
    for_each (analyze_job action_name) entries []
  else ret [].

(** ** Effects *)

Inductive event : Type :=
| EvPrint (line : string)                               (* print(...) *)
| EvGet (url : string) (headers : list (string * string)) (* requests.get *)
| EvSafeLoad (document : string)                        (* yaml.safe_load *)
| EvSleep (milliseconds : Z)                            (* time.sleep *)
| EvOpen (path : string)                                (* open(path, 'w') *)
| EvWrite (chunk : string)                              (* f.write *)
| EvClose.                                              (* leaving the with block *)

(** What the program takes from outside: the remote service, the clock, and
    the library functions it calls.  [world] is the state of everything
    outside the process. *)
Class Platform : Type := {
  world : Type;
  requests_get : string -> list (string * string) -> world ->
                 (library_error + response) * world;
  time_time : world -> Z;                               (* int(time.time()) *)
  time_sleep : world -> world;
  yaml_safe_load : string -> library_error + value;
  requests_utils_quote : string -> string;
  b64decode_utf8 : string -> library_error + string;    (* b64decode(..).decode('utf-8') *)
  int_of_str : string -> library_error + Z;             (* int(s) *)
  str_of_exn : exn -> string;                           (* an exception in an f-string *)
  str_of_value : value -> string                        (* a value in an f-string *)
}.

(** The file descriptor passed to the analyzer. *)
Record file_info : Type := mkFileInfo {
  info_repo : string;
  info_path : string;
  info_name : string
}.

(** An entry of [usage_by_repo]: ['workflow'], ['path'] and the members of the
    instance. *)
Record usage : Type := mkUsage {
  workflow : string;
  path : string;
  found : instance
}.

Record arguments : Type := mkArguments {
  org : string;
  action : string;
  token : option string;        (* None: no --token and no GITHUB_TOKEN *)
  output : string;
  broad_search : bool
}.

(** The variables the scan loop updates. *)
Record scan_state : Type := mkScan {
  usage_by_repo : list (string * list usage);
  total_usages : nat;
  files_processed : nat
}.

Definition newline : string := String (ascii_of_nat 10) EmptyString.

(** [sorted(usage_by_repo.items())]: the keys of a dictionary are distinct, so
    the pairs are ordered by their first component. *)
Module RepoOrder <: Orders.TotalLeBool.

Definition t : Type := (string * list usage)%type.

Definition leb (a b : t) : bool := String.leb (fst a) (fst b).

Theorem leb_total : forall a b, leb a b = true \/ leb b a = true.
Proof. intros a b. apply String.leb_total. Qed.

End RepoOrder.

Module RepoSort := Mergesort.Sort RepoOrder.

Definition sorted (items : list (string * list usage)) : list (string * list usage) :=
  RepoSort.sort items.

Section Program.

Context {P : Platform}.

(** The outcome of running a computation from a given world. *)
Record run (A : Type) : Type := mkRun {
  result : res A;
  final : world;
  trace : list event
}.
Arguments mkRun {A}.
Arguments result {A}.
Arguments final {A}.
Arguments trace {A}.

Definition IO (A : Type) : Type := world -> run A.

#[global] Instance Monad_IO : Monad IO := {
  ret := fun A a w => mkRun (inr a) w [];
  bind := fun A B m k w =>
    let r := m w in
    match result r with
    | inl e => mkRun (inl e) (final r) (trace r)
    | inr a => let r' := k a (final r) in
               mkRun (result r') (final r') (trace r ++ trace r')
    end
}.

Definition lift {A : Type} (r : res A) : IO A := fun w => mkRun r w [].

Definition library {A : Type} (r : library_error + A) : res A :=
  match r with
  | inl e => inl (LibraryError e)
  | inr a => inr a
  end.

Definition emit (e : event) : IO unit := fun w => mkRun (inr tt) w [e].

Definition print (line : string) : IO unit := emit (EvPrint line).

Definition write (chunk : string) : IO unit := emit (EvWrite chunk).

Definition sleep (milliseconds : Z) : IO unit :=
  fun w => mkRun (inr tt) (time_sleep w) [EvSleep milliseconds].

Definition now : IO Z := fun w => mkRun (inr (time_time w)) w [].

Definition get (url : string) (headers : list (string * string)) : IO response :=
  fun w => let '(r, w') := requests_get url headers w in
           mkRun (library r) w' [EvGet url headers].

Definition safe_load (document : string) : IO value :=
  fun w => mkRun (library (yaml_safe_load document)) w [EvSafeLoad document].

Definition exit {A : Type} (code : Z) : IO A := lift (raise (SystemExit code)).

(** [try: body except <class> as e: handler e]; [catches] tells the
    exceptions of the class. *)
Definition try_except {A : Type} (catches : exn -> bool)
    (body : IO A) (handler : exn -> IO A) : IO A :=
  fun w =>
    let r := body w in
    match result r with
    | inl e => if catches e
               then let r' := handler e (final r) in
                    mkRun (result r') (final r') (trace r ++ trace r')
               else r
    | inr _ => r
    end.

(** [with open(path, 'w') as f: body]: the file is closed on every exit. *)
Definition with_open (file : string) (body : IO unit) : IO unit :=
  fun w =>
    let r := body w in
    mkRun (result r) (final r) (EvOpen file :: trace r ++ [EvClose]).

(** [response.raise_for_status()] *)
Definition raise_for_status (r : response) : res unit :=
  if (400 <=? status_code r)%Z && (status_code r <? 600)%Z
  then raise (HTTPError r)
  else ret tt.

(** [d[key]] on a decoded JSON object. *)
Definition member {A : Type} (key : string) (field : option A) : res A :=
  match field with
  | Some a => ret a
  | None => raise (KeyError key)
  end.

Definition request_headers (token : string) : list (string * string) :=
  [("Authorization", "token " ++ token);
   ("Accept", "application/vnd.github.v3+json")].

(** [e.response.text] in the handler of [HTTPError]. *)
Definition response_text (e : exn) : string :=
  match e with
  | HTTPError r => text r
  | _ => EmptyString
  end.

(** ** search_for_action *)

Definition search_query (org action_name : string) (broader_search : bool) : string :=
  if broader_search
  then "org:" ++ org ++ " path:.github/workflows/ filename:.yml OR filename:.yaml"
  else "org:" ++ org ++ " path:.github/workflows/ " ++ action_name.

Definition search_url (org action_name : string) (broader_search : bool) : string :=
  "https://api.github.com/search/code?q="
    ++ requests_utils_quote (search_query org action_name broader_search)
    ++ "&per_page=100".

(** ['message' in search_results and 'rate limit' in search_results['message'].lower()] *)
Definition rate_limited (search_results : json_body) : bool :=
  match json_message search_results with
  | Some m => contains "rate limit" (lower m)
  | None => false
  end.

Definition search_for_action (org action_name token : string)
    (broader_search : bool) : IO (list candidate) :=
  let url := search_url org action_name broader_search in
  let headers := request_headers token in
  print ("Searching for workflow files in " ++ org ++ " organization...") ;;
  try_except is_HTTPError
    (response <- get url headers ;;
     lift (raise_for_status response) ;;
     search_results <- lift (library (json response)) ;;
     if rate_limited search_results then
       reset_time <- lift (match x_ratelimit_reset response with
                           | Some header => library (int_of_str header)
                           | None => ret 0%Z
                           end) ;;
       seconds <- now ;;
       let wait_time := Z.max 0 (reset_time - seconds) in
       print ("Rate limit exceeded. Try again in " ++ str_of_Z wait_time ++ " seconds.") ;;
       ret []
     else
       ret (match json_items search_results with
            | Some found_items => found_items
            | None => []
            end))
    (fun e =>
       print ("Error searching for actions: " ++ str_of_exn e) ;;
       print ("Response: " ++ response_text e) ;;
       ret []).

(** ** get_file_content *)

Definition get_file_content (url token : string) : IO string :=
  response <- get url (request_headers token) ;;
  lift (raise_for_status response) ;;
  content_info <- lift (library (json response)) ;;
  encoding <- lift (member "encoding" (json_encoding content_info)) ;;
  if String.eqb encoding "base64" then
    content <- lift (member "content" (json_content content_info)) ;;
    lift (library (b64decode_utf8 content))
  else
    lift (member "content" (json_content content_info)).

(** ** analyze_workflow_content *)

Definition analyze_workflow_content (content action_name : string)
    (info : file_info) : IO (list instance) :=
  try_except is_Exception
    (if negb (contains action_name content) then ret []
     else
       workflow_data <- safe_load content ;;
       lift (find_instances action_name workflow_data))
    (fun e =>
       print ("Error parsing workflow " ++ info_path info ++ ": " ++ str_of_exn e) ;;
       ret []).

(** ** main *)

Definition has_key (key : string) (d : list (string * list usage)) : bool :=
  existsb (fun entry => String.eqb key (fst entry)) d.

(** [d[key].append(u)] *)
Definition append_usage (key : string) (u : usage)
    (d : list (string * list usage)) : list (string * list usage) :=
  map (fun entry => if String.eqb key (fst entry)
                    then (fst entry, snd entry ++ [u])%list
                    else entry) d.

(** Lines 141-149: create the list of the repository on first use, then
    append one entry per instance. *)
Definition record_usages (repo_name file_name file_path : string)
    (instances : list instance) (d : list (string * list usage))
    : list (string * list usage) :=
  let d := if has_key repo_name d then d else (d ++ [(repo_name, [])])%list in
  fold_left (fun d instance =>
               append_usage repo_name (mkUsage file_name file_path instance) d)
            instances d.

(** [time.sleep(0.5)] *)
Definition throttle_ms : Z := 500.

(** Body of [for item in search_results].  No statement that follows the
    first update of the counters can raise, so the handler meets the state
    as it was when the [try] block was entered. *)
Definition process_item (args : arguments) (credential : string) (total_files : nat)
    (st : scan_state) (item : candidate) : IO scan_state :=
  let repo_name := item_repository item in
  let file_path := item_path item in
  let file_name := basename file_path in
  let st := mkScan (usage_by_repo st) (total_usages st) (files_processed st + 1) in
  print ("[" ++ str_of_nat (files_processed st) ++ "/" ++ str_of_nat total_files
             ++ "] Analyzing " ++ repo_name ++ "/" ++ file_path ++ "...") ;;
  try_except is_Exception
    (content <- get_file_content (item_url item) credential ;;
     instances <- analyze_workflow_content content (action args)
                    (mkFileInfo repo_name file_path file_name) ;;
     st' <- match instances with
            | [] => ret st
            | _ :: _ =>
                print ("  Found " ++ str_of_nat (length instances)
                         ++ " instances of " ++ action args) ;;
                ret (mkScan (record_usages repo_name file_name file_path
                               instances (usage_by_repo st))
                            (total_usages st + length instances)
                            (files_processed st))
            end ;;
     sleep throttle_ms ;;
     ret st')
    (fun e =>
       print ("Error processing " ++ file_path ++ ": " ++ str_of_exn e) ;;
       ret st).

(** Lines 181-184 of the report writer. *)
Definition write_inputs (u : usage) : IO unit :=
  if truthy (inputs (found u)) then
    write ("  Configuration:" ++ newline) ;;
    parameters <- lift (py_items (inputs (found u))) ;;
    for_each (fun (_ : unit) (entry : value * value) =>
                write ("    " ++ str_of_value (fst entry) ++ ": "
                         ++ str_of_value (snd entry) ++ newline))
             parameters tt
  else ret tt.

(** Body of [for i, instance in enumerate(instances, 1)]. *)
Definition write_instance (_ : unit) (entry : nat * usage) : IO unit :=
  let '(i, u) := entry in
  write ("Instance #" ++ str_of_nat i ++ ":" ++ newline) ;;
  write ("  Workflow: " ++ workflow u ++ " (" ++ path u ++ ")" ++ newline) ;;
  write ("  Job: " ++ str_of_value (job (found u)) ++ newline) ;;
  write ("  Step: " ++ str_of_value (step_name (found u)) ++ newline) ;;
  write ("  Action Reference: " ++ str_of_value (action_ref (found u)) ++ newline) ;;
  write_inputs u ;;
  write newline.

(** Body of [for repo, instances in sorted(usage_by_repo.items())]. *)
Definition write_repository (_ : unit) (entry : string * list usage) : IO unit :=
  let '(repo, instances) := entry in
  write ("Repository: " ++ repo ++ newline) ;;
  write (dashes (String.length ("Repository: " ++ repo)) ++ newline) ;;
  for_each write_instance (enumerate_from 1 instances) tt ;;
  write newline.

Definition no_instances_line : string :=
  "No instances of this action were found." ++ newline.

Definition write_header (args : arguments) (repos_with_action total : nat) : IO unit :=
  write ("Usage Report for '" ++ action args ++ "' in " ++ org args ++ newline) ;;
  write ("===============================================" ++ newline ++ newline) ;;
  write ("Repositories using this action: " ++ str_of_nat repos_with_action ++ newline) ;;
  write ("Total usages found: " ++ str_of_nat total ++ newline ++ newline).

(** Lines 158-190. *)
Definition write_report (args : arguments) (st : scan_state) : IO unit :=
  let repos_with_action := length (usage_by_repo st) in
  with_open (output args)
    (write_header args repos_with_action (total_usages st) ;;
     if (0 <? repos_with_action)%nat then
       write ("Detailed Usage by Repository:" ++ newline) ;;
       write ("============================" ++ newline ++ newline) ;;
       for_each write_repository (sorted (usage_by_repo st)) tt
     else
       write no_instances_line).

(** [not args.token] *)
Definition no_token (t : option string) : bool :=
  match t with
  | None => true
  | Some s => String.eqb s ""
  end.

Definition scan (args : arguments) (credential : string)
    (search_results : list candidate) : IO scan_state :=
  for_each (process_item args credential (length search_results))
           search_results (mkScan [] 0 0).

Definition main (args : arguments) : IO unit :=
  (if no_token (token args) then
     print "Error: GitHub token is required. Set GITHUB_TOKEN environment variable or use --token." ;;
     exit 1%Z
   else ret tt) ;;
  let credential := match token args with Some t => t | None => EmptyString end in
  search_results <- search_for_action (org args) (action args) credential
                      (broad_search args) ;;
  print ("Found " ++ str_of_nat (length search_results) ++ " workflow files to analyze") ;;
  st <- scan args credential search_results ;;
  write_report args st ;;
  print (newline ++ "Scan complete! Report written to " ++ output args) ;;
  print ("Found " ++ str_of_nat (total_usages st) ++ " instances of " ++ action args
           ++ " across " ++ str_of_nat (length (usage_by_repo st)) ++ " repositories").

(** The status the process ends with: 0 when [main] returns, the code given
    to [exit], 1 after an uncaught exception. *)
Definition exit_status (r : res unit) : Z :=
  match r with
  | inr _ => 0
  | inl (SystemExit code) => code
  | inl _ => 1
  end.

End Program.

Arguments mkRun {P A}.
Arguments result {P A}.
Arguments final {P A}.
Arguments trace {P A}.

(** ** Views of a parsed document, the aggregate and the report *)

(** [v[key]] when [v] is a mapping that has the key. *)
Definition field (key : string) (v : value) : option value :=
  match v with
  | VDict d => lookup key d
  | _ => None
  end.

(** The pairs the loop over the jobs visits. *)
Definition job_entries (workflow_data : value) : list (value * value) :=
  match field "jobs" workflow_data with
  | Some (VDict jobs) => jobs
  | _ => []
  end.

(** The steps the loop over [job_config['steps']] visits. *)
Definition step_sequence (job_config : value) : list value :=
  match field "steps" job_config with
  | Some steps => match py_iter steps with
                  | inr sequence => sequence
                  | inl _ => []
                  end
  | None => []
  end.

(** The [uses] field of a step that passes the test of line 76. *)
Definition matching_reference (action_name : string) (step : value) : option value :=
  match field "uses" step with
  | Some uses => match py_contains action_name uses with
                 | inr true => Some uses
                 | _ => None
                 end
  | None => None
  end.

(** [step.get('name', f"Step {step_index + 1}")] *)
Definition display_name (step_index : nat) (step : value) : value :=
  match field "name" step with
  | Some name => name
  | None => VStr ("Step " ++ str_of_nat (step_index + 1))
  end.

(** [step.get('with', {})] *)
Definition parameters (step : value) : value :=
  match field "with" step with
  | Some given => given
  | None => VDict []
  end.

(** What one step adds to [instances]. *)
Definition contribution (action_name : string) (job_name : value)
    (entry : nat * value) : list instance :=
  match matching_reference action_name (snd entry) with
  | Some reference =>
      [ {| job := job_name;
           step_name := display_name (fst entry) (snd entry);
           action_ref := reference;
           inputs := parameters (snd entry) |} ]
  | None => []
  end.

(** What the steps of one job add, in the order of the steps. *)
Definition job_contribution (action_name : string) (entry : value * value)
    : list instance :=
  flat_map (contribution action_name (fst entry))
           (enumerate (step_sequence (snd entry))).

(** What the jobs of the document add, in the order of the jobs. *)
Definition document_instances (action_name : string) (workflow_data : value)
    : list instance :=
  flat_map (job_contribution action_name) (job_entries workflow_data).

(** The shape section 3 of the specification gives a workflow document: a
    step is a mapping whose reference field, when present, is a string; a job
    configuration is a mapping whose step sequence, when present, is a list of
    steps; the document is a mapping whose job collection, when present, maps
    job names to job configurations. *)
Definition well_formed_step (step : value) : bool :=
  match step with
  | VDict d => match lookup "uses" d with
               | Some (VStr _) | None => true
               | Some _ => false
               end
  | _ => false
  end.

Definition well_formed_job (job_config : value) : bool :=
  match job_config with
  | VDict d => match lookup "steps" d with
               | Some (VList steps) => forallb well_formed_step steps
               | None => true
               | Some _ => false
               end
  | _ => false
  end.

Definition well_formed (workflow_data : value) : bool :=
  match workflow_data with
  | VDict d => match lookup "jobs" d with
               | Some (VDict jobs) => forallb (fun entry => well_formed_job (snd entry)) jobs
               | None => true
               | Some _ => false
               end
  | _ => false
  end.

(** The step has a reference field whose value contains the target. *)
Definition mentions (action_name : string) (step : value) : Prop :=
  exists reference, field "uses" step = Some (VStr reference)
                    /\ contains action_name reference = true.

(** The computation returns, or raises an exception that [except Exception]
    catches. *)
Definition ordinary {A : Type} (r : res A) : Prop :=
  match r with
  | inl e => is_Exception e = true
  | inr _ => True
  end.

(** [list(d.keys())] *)
Definition keys (d : list (string * list usage)) : list string := map fst d.

(** The number of entries stored, all repositories together. *)
Definition recorded (d : list (string * list usage)) : nat :=
  list_sum (map (fun entry => length (snd entry)) d).

(** [d.get(repo, [])] *)
Fixpoint usages_of (repo : string) (d : list (string * list usage)) : list usage :=
  match d with
  | [] => []
  | (k, us) :: rest => if String.eqb repo k then us else usages_of repo rest
  end.

(** The invariant of the scan loop. *)
Definition consistent (st : scan_state) : Prop :=
  NoDup (keys (usage_by_repo st)) /\ total_usages st = recorded (usage_by_repo st).

(** The entries recorded for [repo], in the order of discovery: the
    candidates in the order of the search results, the instances of a
    candidate in the order the analyzer returned them. *)
Definition discovered (repo : string) (log : list (candidate * list instance))
    : list usage :=
  flat_map (fun entry =>
              if String.eqb repo (item_repository (fst entry))
              then map (mkUsage (basename (item_path (fst entry)))
                                (item_path (fst entry)))
                       (snd entry)
              else [])
           log.

(** [a] comes strictly before [b] in the lexicographic order. *)
Definition before (a b : string * list usage) : Prop :=
  String.ltb (fst a) (fst b) = true.

(** The writer can render the entry: its inputs are a mapping, or a value
    the test [if instance['inputs']] turns down. *)
Definition renderable (u : usage) : bool :=
  match inputs (found u) with
  | VDict _ => true
  | v => negb (truthy v)
  end.

(** The chunks written to the report file, read off a trace. *)
Definition written (events : list event) : list string :=
  flat_map (fun e => match e with
                     | EvWrite chunk => [chunk]
                     | _ => []
                     end) events.

(** ** What a run prints, requests and writes *)

Section Observations.

Context {P : Platform}.

(** The diagnostic of line 91. *)
Definition parse_diagnostic (info : file_info) (e : exn) : event :=
  EvPrint ("Error parsing workflow " ++ info_path info ++ ": " ++ str_of_exn e).

(** The test of [raise_for_status]: a 4xx or 5xx status. *)
Definition error_status (r : response) : bool :=
  (400 <=? status_code r)%Z && (status_code r <? 600)%Z.

(** The lines the program prints. *)
Definition searching_line (org : string) : event :=
  EvPrint ("Searching for workflow files in " ++ org ++ " organization...").

(** [int(response.headers.get('X-RateLimit-Reset', 0))] *)
Definition reset_time (r : response) : library_error + Z :=
  match x_ratelimit_reset r with
  | Some header => int_of_str header
  | None => inr 0%Z
  end.

Definition progress_line (total_files n : nat) (item : candidate) : event :=
  EvPrint ("[" ++ str_of_nat n ++ "/" ++ str_of_nat total_files ++ "] Analyzing "
               ++ item_repository item ++ "/" ++ item_path item ++ "...").

Definition processing_error (item : candidate) (e : exn) : event :=
  EvPrint ("Error processing " ++ item_path item ++ ": " ++ str_of_exn e).

Definition found_line (action_name : string) (n : nat) : event :=
  EvPrint ("  Found " ++ str_of_nat n ++ " instances of " ++ action_name).

(** The dictionary [main] passes to the analyzer. *)
Definition item_info (item : candidate) : file_info :=
  mkFileInfo (item_repository item) (item_path item) (basename (item_path item)).

(** The state after an iteration that found [instances] in [item]. *)
Definition absorb (item : candidate) (instances : list instance)
    (st : scan_state) : scan_state :=
  match instances with
  | [] => mkScan (usage_by_repo st) (total_usages st) (files_processed st + 1)
  | _ :: _ =>
      mkScan (record_usages (item_repository item) (basename (item_path item))
                (item_path item) instances (usage_by_repo st))
             (total_usages st + length instances)
             (files_processed st + 1)
  end.

(** The instances an iteration finds: none when the fetch raises. *)
Definition found_instances (args : arguments) (credential : string)
    (item : candidate) (w : world) : list instance :=
  let fetched := get_file_content (item_url item) credential w in
  match result fetched with
  | inl _ => []
  | inr content =>
      match result (analyze_workflow_content content (action args)
                      (item_info item) (final fetched)) with
      | inl _ => []
      | inr l => l
      end
  end.

(** The events of an iteration. *)
Definition item_trace (args : arguments) (credential : string) (total_files n : nat)
    (item : candidate) (w : world) : list event :=
  let fetched := get_file_content (item_url item) credential w in
  match result fetched with
  | inl e => progress_line total_files n item
               :: trace fetched ++ [processing_error item e]
  | inr content =>
      let analyzed := analyze_workflow_content content (action args)
                        (item_info item) (final fetched) in
      progress_line total_files n item
        :: trace fetched ++ trace analyzed
        ++ match result analyzed with
           | inr (i :: l) => [found_line (action args) (length (i :: l));
                              EvSleep throttle_ms]
           | _ => [EvSleep throttle_ms]
           end
  end.

(** The world after an iteration: the pause is taken only when the fetch
    returned. *)
Definition world_after (credential : string) (item : candidate) (w : world) : world :=
  let fetched := get_file_content (item_url item) credential w in
  match result fetched with
  | inl _ => final fetched
  | inr _ => time_sleep (final fetched)
  end.

(** What each candidate yields, in the order of the search results. *)
Fixpoint scan_log (args : arguments) (credential : string)
    (items : list candidate) (w : world) : list (candidate * list instance) :=
  match items with
  | [] => []
  | item :: rest =>
      (item, found_instances args credential item w)
        :: scan_log args credential rest (world_after credential item w)
  end.

(** The events of the scan loop, and the world it leaves. *)
Fixpoint scan_trace (args : arguments) (credential : string) (total_files n : nat)
    (items : list candidate) (w : world) : list event :=
  match items with
  | [] => []
  | item :: rest =>
      item_trace args credential total_files (n + 1) item w
        ++ scan_trace args credential total_files (n + 1) rest
             (world_after credential item w)
  end.

Fixpoint scan_world (credential : string) (items : list candidate) (w : world) : world :=
  match items with
  | [] => w
  | item :: rest => scan_world credential rest (world_after credential item w)
  end.

(** The state after the iterations recorded in [log]. *)
Definition absorb_all (log : list (candidate * list instance)) (st : scan_state)
    : scan_state :=
  fold_left (fun st entry => absorb (fst entry) (snd entry) st) log st.

(** The credential passed on once the token test has succeeded. *)
Definition credential_of (args : arguments) : string :=
  match token args with
  | Some t => t
  | None => EmptyString
  end.

(** The format of the report file (section 6 of the specification), as the
    list of the chunks written. *)
Definition parameter_entries (v : value) : list (value * value) :=
  match v with
  | VDict d => d
  | _ => []
  end.

Definition configuration_chunks (u : usage) : list string :=
  if truthy (inputs (found u)) then
    ("  Configuration:" ++ newline)
      :: map (fun entry => "    " ++ str_of_value (fst entry) ++ ": "
                             ++ str_of_value (snd entry) ++ newline)
             (parameter_entries (inputs (found u)))
  else [].

Definition instance_chunks (entry : nat * usage) : list string :=
  app
   [ "Instance #" ++ str_of_nat (fst entry) ++ ":" ++ newline;
     "  Workflow: " ++ workflow (snd entry) ++ " (" ++ path (snd entry) ++ ")" ++ newline;
     "  Job: " ++ str_of_value (job (found (snd entry))) ++ newline;
     "  Step: " ++ str_of_value (step_name (found (snd entry))) ++ newline;
     "  Action Reference: " ++ str_of_value (action_ref (found (snd entry))) ++ newline ]
   (app (configuration_chunks (snd entry)) [newline]).

Definition repository_chunks (entry : string * list usage) : list string :=
  app
   [ "Repository: " ++ fst entry ++ newline;
     dashes (String.length ("Repository: " ++ fst entry)) ++ newline ]
   (app (flat_map instance_chunks (enumerate_from 1 (snd entry))) [newline]).

Definition header_chunks (args : arguments) (repos_with_action total : nat)
    : list string :=
  [ "Usage Report for '" ++ action args ++ "' in " ++ org args ++ newline;
    "===============================================" ++ newline ++ newline;
    "Repositories using this action: " ++ str_of_nat repos_with_action ++ newline;
    "Total usages found: " ++ str_of_nat total ++ newline ++ newline ].

Definition detail_heading : list string :=
  [ "Detailed Usage by Repository:" ++ newline;
    "============================" ++ newline ++ newline ].

(** The detailed section, or the single line that replaces it. *)
Definition report_body (groups : list (string * list usage)) : list string :=
  match groups with
  | [] => [no_instances_line]
  | _ :: _ => app detail_heading (flat_map repository_chunks groups)
  end.

(** [m] does nothing but write the chunks [cs] and return [a], unless it
    raises. *)
Definition writes {A : Type} (m : IO A) (a : A) (cs : list string) : Prop :=
  forall w r, result (m w) = inr r -> m w = mkRun (inr a) w (map EvWrite cs).

(** [m] returns from every world. *)
Definition succeeds {A : Type} (m : IO A) : Prop :=
  forall w, exists a, result (m w) = inr a.

End Observations.

(** ** Fixtures: a scripted platform and sample documents *)

Module Fixture.

Definition lines (ls : list string) : string :=
  String.concat newline ls.

(** A workflow with three steps that mention [a/b], one that invokes another
    action and one that runs a command. *)
Definition sample_text : string :=
  lines [ "jobs:";
          "  build:";
          "    steps:";
          "      - name: Fetch";
          "        uses: a/b@v2";
          "      - uses: a/b-suffix@v1";
          "      - uses: x/a/b@v1";
          "        with:";
          "          depth: 1";
          "      - uses: c/d@v1";
          "      - run: make" ].

Definition sample_document : value :=
  VDict [ (VStr "jobs",
     VDict [ (VStr "build",
        VDict [ (VStr "steps",
           VList [ VDict [ (VStr "name", VStr "Fetch"); (VStr "uses", VStr "a/b@v2") ];
                   VDict [ (VStr "uses", VStr "a/b-suffix@v1") ];
                   VDict [ (VStr "uses", VStr "x/a/b@v1");
                           (VStr "with", VDict [ (VStr "depth", VInt 1) ]) ];
                   VDict [ (VStr "uses", VStr "c/d@v1") ];
                   VDict [ (VStr "run", VStr "make") ] ]) ]) ]) ].

(** What the analyzer finds in the sample for the target [a/b]. *)
Definition sample_instances : list instance :=
  [ mkInstance (VStr "build") (VStr "Fetch") (VStr "a/b@v2") (VDict []);
    mkInstance (VStr "build") (VStr "Step 2") (VStr "a/b-suffix@v1") (VDict []);
    mkInstance (VStr "build") (VStr "Step 3") (VStr "x/a/b@v1")
               (VDict [ (VStr "depth", VInt 1) ]) ].

(** A workflow whose second job has no body: YAML reads it as null. *)
Definition null_job_text : string :=
  lines [ "jobs:";
          "  build:";
          "    steps:";
          "      - uses: a/b@v2";
          "  broken:" ].

Definition matching_step : value :=
  VDict [ (VStr "uses", VStr "a/b@v2") ].

Definition build_job : value * value :=
  (VStr "build", VDict [ (VStr "steps", VList [ matching_step ]) ]).

Definition null_job_document : value :=
  VDict [ (VStr "jobs", VDict [ build_job; (VStr "broken", VNone) ]) ].

(** A file that holds a comment only: YAML reads it as [None]. *)
Definition comment_text : string := "# a/b".

(** Two texts no YAML parser accepts: an unclosed flow sequence. *)
Definition malformed_text : string := "jobs: [a/b".
Definition unrelated_malformed_text : string := "jobs: [c/d".

Definition scanner_error : library_error :=
  mkLibraryError "yaml.scanner.ScannerError" "while parsing a flow sequence".

Definition parser (document : string) : library_error + value :=
  if String.eqb document sample_text then inr sample_document
  else if String.eqb document null_job_text then inr null_job_document
  else if String.eqb document comment_text then inr VNone
  else inl scanner_error.

Definition value_error : library_error :=
  mkLibraryError "ValueError" "invalid literal for int() with base 10".

Definition parse_int (s : string) : library_error + Z :=
  match NilZero.int_of_string s with
  | Some i => inr (Z.of_int i)
  | None => inl value_error
  end.

Definition show_exn (e : exn) : string :=
  match e with
  | TypeError => "TypeError"
  | KeyError key => "'" ++ key ++ "'"
  | AttributeError => "AttributeError"
  | HTTPError r => str_of_Z (status_code r) ++ " Error"
  | LibraryError e => error_text e
  | SystemExit code => str_of_Z code
  end.

Definition show_value (v : value) : string :=
  match v with
  | VNone => "None"
  | VBool true => "True"
  | VBool false => "False"
  | VInt z => str_of_Z z
  | VFloat _ => "<float>"
  | VStr s => s
  | VList _ => "[...]"
  | VDict _ => "{...}"
  end.

(** A platform whose remote service answers each URL from a table; the
    world counts the requests sent and the sleeps taken. *)
Definition scripted (service : string -> library_error + response) : Platform :=
  {| world := nat * nat;
     requests_get := fun url _ w => (service url, (S (fst w), snd w));
     time_time := fun _ => 1700000000%Z;
     time_sleep := fun w => (fst w, S (snd w));
     yaml_safe_load := parser;
     requests_utils_quote := fun s => s;
     b64decode_utf8 := fun s => inr s;
     int_of_str := parse_int;
     str_of_exn := show_exn;
     str_of_value := show_value |}.

Definition connection_error : library_error :=
  mkLibraryError "requests.exceptions.ConnectionError" "Connection refused".

Definition offline : Platform := scripted (fun _ => inl connection_error).

(** No request sent, no sleep taken. *)
Definition initial : nat * nat := (0, 0).

Definition info : file_info :=
  mkFileInfo "acme/app" ".github/workflows/ci.yml" "ci.yml".

End Fixture.

(** ** Fixtures: remote services *)

Module Service.

Definition double_quote : string := String (ascii_of_nat 34) EmptyString.

Definition quoted (s : string) : string := double_quote ++ s ++ double_quote.

Definition token : string := "t0k3n".

Definition args : arguments :=
  mkArguments "acme" "a/b" (Some token) "report.txt" false.

(** What GitHub answers when the rate limit is exceeded: status 403, a
    message naming the rate limit, and the reset time in a header. *)
Definition rate_limit_body : json_body :=
  mkBody (Some "API rate limit exceeded for user ID 1.") None None None.

Definition rate_limit_text : string :=
  "{" ++ quoted "message" ++ ": "
      ++ quoted "API rate limit exceeded for user ID 1." ++ "}".

Definition rate_limit_response (status : Z) : response :=
  mkResponse status rate_limit_text (Some "1700000060") (inr rate_limit_body).

Definition rate_limiting (status : Z) : Platform :=
  Fixture.scripted (fun _ => inr (rate_limit_response status)).

(** Two candidates in two repositories, found in the order [zeta], [alpha]. *)
Definition first_item : candidate :=
  mkCandidate "acme/zeta" ".github/workflows/ci.yml" "https://api.test/zeta/ci".

Definition second_item : candidate :=
  mkCandidate "acme/alpha" ".github/workflows/build.yml" "https://api.test/alpha/build".

Definition not_found : response :=
  mkResponse 404 "Not Found" None (inr (mkBody (Some "Not Found") None None None)).

Definition found_items : response :=
  mkResponse 200 "{...}" None
    (inr (mkBody None (Some [first_item; second_item]) None None)).

Definition file_body (content : string) : response :=
  mkResponse 200 "{...}" None (inr (mkBody None None (Some "base64") (Some content))).

(** The search succeeds; the first file is gone, the second is the sample. *)
Definition first_file_missing : Platform :=
  Fixture.scripted (fun url =>
    if String.eqb url (item_url first_item) then inr not_found
    else if String.eqb url (item_url second_item) then inr (file_body Fixture.sample_text)
    else inr found_items).

(** The search succeeds and both files are the sample workflow. *)
Definition both_files_match : Platform :=
  Fixture.scripted (fun url =>
    if String.eqb url (item_url first_item) then inr (file_body Fixture.sample_text)
    else if String.eqb url (item_url second_item) then inr (file_body Fixture.sample_text)
    else inr found_items).

End Service.

(** ** Further observations of a run *)

Definition is_request (e : event) : bool :=
  match e with
  | EvGet _ _ => true
  | _ => false
  end.

(** The HTTP requests of a trace, in the order they were sent. *)
Definition requests (events : list event) : list event :=
  filter is_request events.

Definition is_pause (e : event) : bool :=
  match e with
  | EvSleep _ => true
  | _ => false
  end.

(** The pauses of a trace. *)
Definition pauses (events : list event) : list event :=
  filter is_pause events.

(** The event concerns the report file. *)
Definition is_file_event (e : event) : bool :=
  match e with
  | EvOpen _ | EvWrite _ | EvClose => true
  | _ => false
  end.

Definition is_write (e : event) : bool :=
  match e with
  | EvWrite _ => true
  | _ => false
  end.

(** The event is a line on the console. *)
Definition is_print (e : event) : bool :=
  match e with
  | EvPrint _ => true
  | _ => false
  end.

(** The number of steps the loops of the analyzer visit in a document. *)
Definition step_count (workflow_data : value) : nat :=
  list_sum (map (fun entry => length (step_sequence (snd entry)))
                (job_entries workflow_data)).

(** Every entry of the aggregate is renderable. *)
Definition all_renderable (d : list (string * list usage)) : bool :=
  forallb (fun entry => forallb renderable (snd entry)) d.

Section Coverage.

Context {P : Platform}.

(** For each candidate in turn, whether its fetch returned. *)
Fixpoint fetch_outcomes (credential : string) (items : list candidate) (w : world)
    : list bool :=
  match items with
  | [] => []
  | item :: rest =>
      match result (get_file_content (item_url item) credential w) with
      | inr _ => true
      | inl _ => false
      end :: fetch_outcomes credential rest (world_after credential item w)
  end.

(** Every event of every run of [m] satisfies [allowed]. *)
Definition confined {A : Type} (allowed : event -> bool) (m : IO A) : Prop :=
  forall w, forallb allowed (trace (m w)) = true.

(** The result of [m] is [expected], from every world. *)
Definition yields {A : Type} (m : IO A) (expected : res A) : Prop :=
  forall w, result (m w) = expected.

End Coverage.

(** ** Fixtures: further documents and services *)

Module Cases.

(** A workflow file that declares no job. *)
Definition no_jobs_text : string :=
  Fixture.lines [ "name: a/b"; "on: push" ].

Definition no_jobs_document : value :=
  VDict [ (VStr "name", VStr "a/b"); (VBool true, VStr "push") ].

(** A workflow file whose [jobs] key has no value. *)
Definition null_jobs_text : string :=
  Fixture.lines [ "name: a/b"; "jobs:" ].

Definition null_jobs_document : value :=
  VDict [ (VStr "name", VStr "a/b"); (VStr "jobs", VNone) ].

(** A workflow whose matching step gives [with] a string instead of a
    mapping. *)
Definition text_inputs_text : string :=
  Fixture.lines [ "jobs:";
                  "  build:";
                  "    steps:";
                  "      - uses: a/b@v2";
                  "        with: everything" ].

Definition text_inputs_document : value :=
  VDict [ (VStr "jobs",
     VDict [ (VStr "build",
        VDict [ (VStr "steps",
           VList [ VDict [ (VStr "uses", VStr "a/b@v2");
                           (VStr "with", VStr "everything") ] ]) ]) ]) ].

Definition parser (document : string) : library_error + value :=
  if String.eqb document no_jobs_text then inr no_jobs_document
  else if String.eqb document null_jobs_text then inr null_jobs_document
  else if String.eqb document text_inputs_text then inr text_inputs_document
  else Fixture.parser document.

(** The scripted platform of [Fixture], with the parser above. *)
Definition scripted (service : string -> library_error + response) : Platform :=
  {| world := nat * nat;
     requests_get := fun url _ w => (service url, (S (fst w), snd w));
     time_time := fun _ => 1700000000%Z;
     time_sleep := fun w => (fst w, S (snd w));
     yaml_safe_load := parser;
     requests_utils_quote := fun s => s;
     b64decode_utf8 := fun s => inr s;
     int_of_str := Fixture.parse_int;
     str_of_exn := Fixture.show_exn;
     str_of_value := Fixture.show_value |}.

Definition offline : Platform := scripted (fun _ => inl Fixture.connection_error).

(** A rate-limit answer under status 200 that carries no reset header. *)
Definition rate_limit_without_header : response :=
  mkResponse 200 Service.rate_limit_text None (inr Service.rate_limit_body).

Definition rate_limiting_without_header : Platform :=
  scripted (fun _ => inr rate_limit_without_header).

(** A search answer without an [items] member. *)
Definition no_items : response :=
  mkResponse 200 "{}" None (inr (mkBody None None None None)).

Definition no_results : Platform := scripted (fun _ => inr no_items).

(** The search finds one file, whose step gives [with] a string. *)
Definition one_item : response :=
  mkResponse 200 "{...}" None
    (inr (mkBody None (Some [Service.first_item]) None None)).

Definition text_inputs_service : Platform :=
  scripted (fun url =>
    if String.eqb url (item_url Service.first_item)
    then inr (Service.file_body text_inputs_text)
    else inr one_item).

(** Arguments whose token is the empty string. *)
Definition empty_token_args : arguments :=
  mkArguments "acme" "a/b" (Some EmptyString) "report.txt" false.

End Cases.

(** * Verification *)

(** ** Facts about text *)

Lemma prefix_append (n h : string) :
  String.prefix n h = true <-> exists b, h = n ++ b.
Proof.
  revert h. induction n as [|c n IH]; intros h.
  - destruct h; simpl; split; intros; eauto.
  - destruct h as [|d h]; simpl.
    + split; [discriminate | intros [b Hb]; discriminate].
    + destruct (ascii_dec c d) as [->|Hcd].
      * rewrite IH. split; intros [b Hb]; exists b; [now rewrite Hb | now inversion Hb].
      * split; [discriminate | intros [b Hb]; simpl in Hb; congruence].
Qed.

(** [contains] is the substring relation. *)
Lemma contains_substring (n h : string) :
  contains n h = true <-> exists a b, h = a ++ n ++ b.
Proof.
  induction h as [|c h IH]; cbn [contains].
  - destruct (String.prefix n "") eqn:E.
    + split; [intros _ | reflexivity].
      apply prefix_append in E. destruct E as [b Hb]. now exists "", b.
    + split; [discriminate|]. intros [a [b Hab]].
      destruct a; simpl in Hab; [|discriminate].
      assert (String.prefix n "" = true) by (apply prefix_append; eauto).
      congruence.
  - destruct (String.prefix n (String c h)) eqn:E.
    + split; [intros _ | reflexivity].
      apply prefix_append in E. destruct E as [b Hb]. now exists "", b.
    + rewrite IH. split.
      * intros [a [b Hab]]. exists (String c a), b. simpl. now rewrite Hab.
      * intros [a [b Hab]]. destruct a as [|d a]; simpl in Hab.
        -- assert (String.prefix n (String c h) = true) by (apply prefix_append; eauto).
           congruence.
        -- inversion Hab. eauto.
Qed.

(** ** The analyzer's loops, read as a function of the document *)

Lemma analyze_step_returns action_name job_name acc entry l :
  analyze_step action_name job_name acc entry = inr l ->
  l = (acc ++ contribution action_name job_name entry)%list.
Proof.
  destruct entry as [k step]. unfold analyze_step, contribution, matching_reference,
    display_name, parameters, field. cbn [fst snd].
  destruct step as [| b | z | f | s | els | d]; cbn; try discriminate.
  - destruct (contains "uses" s); cbn; [discriminate|].
    intros H; inversion H. now rewrite app_nil_r.
  - destruct (existsb (is_str "uses") els); cbn; [discriminate|].
    intros H; inversion H. now rewrite app_nil_r.
  - destruct (lookup "uses" d) as [uses|]; cbn.
    + destruct (py_contains action_name uses) as [e|[|]]; cbn; try discriminate.
      * destruct (lookup "name" d), (lookup "with" d); cbn;
          intros H; inversion H; reflexivity.
      * intros H; inversion H. now rewrite app_nil_r.
    + intros H; inversion H. now rewrite app_nil_r.
Qed.

Lemma steps_loop_returns action_name job_name entries : forall acc l,
  for_each (analyze_step action_name job_name) entries acc = inr l ->
  l = (acc ++ flat_map (contribution action_name job_name) entries)%list.
Proof.
  induction entries as [|entry rest IH]; intros acc l; cbn [for_each flat_map].
  - cbn. intros H; inversion H. now rewrite app_nil_r.
  - cbn. destruct (analyze_step action_name job_name acc entry) as [e|acc'] eqn:E;
      [discriminate|].
    intros H. apply IH in H. apply analyze_step_returns in E. subst.
    now rewrite <- app_assoc.
Qed.

Lemma analyze_job_returns action_name acc entry l :
  analyze_job action_name acc entry = inr l ->
  l = (acc ++ job_contribution action_name entry)%list.
Proof.
  destruct entry as [job_name job_config].
  unfold analyze_job, job_contribution, step_sequence, field. cbn [fst snd].
  destruct job_config as [| b | z | f | s | els | d]; cbn; try discriminate.
  - destruct (contains "steps" s); cbn; [discriminate|].
    intros H; inversion H. now rewrite app_nil_r.
  - destruct (existsb (is_str "steps") els); cbn; [discriminate|].
    intros H; inversion H. now rewrite app_nil_r.
  - destruct (lookup "steps" d) as [steps|]; cbn.
    + destruct (py_iter steps) as [e|sequence]; cbn; [discriminate|].
      apply steps_loop_returns.
    + intros H; inversion H. now rewrite app_nil_r.
Qed.

Lemma jobs_loop_returns action_name entries : forall acc l,
  for_each (analyze_job action_name) entries acc = inr l ->
  l = (acc ++ flat_map (job_contribution action_name) entries)%list.
Proof.
  induction entries as [|entry rest IH]; intros acc l; cbn [for_each flat_map].
  - cbn. intros H; inversion H. now rewrite app_nil_r.
  - cbn. destruct (analyze_job action_name acc entry) as [e|acc'] eqn:E;
      [discriminate|].
    intros H. apply IH in H. apply analyze_job_returns in E. subst.
    now rewrite <- app_assoc.
Qed.

(** Whenever the [try] block runs to its [return], the list it returns is
    the concatenation, in document order, of the contributions of the steps. *)
Lemma find_instances_returns action_name workflow_data l :
  find_instances action_name workflow_data = inr l ->
  l = document_instances action_name workflow_data.
Proof.
  unfold find_instances, document_instances, job_entries, field.
  destruct workflow_data as [| b | z | f | s | els | d]; cbn.
  - intros H; now inversion H.
  - destruct b; cbn; [discriminate | intros H; now inversion H].
  - destruct (negb (z =? 0)%Z); cbn; [discriminate | intros H; now inversion H].
  - destruct (negb (f =? 0)%float); cbn; [discriminate | intros H; now inversion H].
  - destruct (negb (s =? "")%string); cbn; [|intros H; now inversion H].
    destruct (contains "jobs" s); cbn; [discriminate | intros H; now inversion H].
  - destruct els; cbn; [intros H; now inversion H|].
    destruct (is_str "jobs" v || existsb (is_str "jobs") els); cbn;
      [discriminate | intros H; now inversion H].
  - destruct d as [|kv d]; [cbn; intros H; now inversion H|].
    cbn [truthy py_contains]. cbn -[lookup].
    destruct (lookup "jobs" (kv :: d)) as [jobs|]; cbn -[lookup].
    + destruct jobs; cbn; try discriminate. apply jobs_loop_returns.
    + intros H; now inversion H.
Qed.

(** ** Documents of the shape the data model describes *)

Lemma analyze_step_total action_name job_name acc k step :
  well_formed_step step = true ->
  exists l, analyze_step action_name job_name acc (k, step) = inr l.
Proof.
  unfold well_formed_step, analyze_step.
  destruct step as [| b | z | f | s | els | d]; try discriminate.
  cbn. destruct (lookup "uses" d) as [[| | | |r| |]|]; try discriminate; intros _; cbn.
  - destruct (contains action_name r); cbn; [|eauto].
    destruct (lookup "name" d), (lookup "with" d); cbn; eauto.
  - eauto.
Qed.

Lemma for_each_cons {S A : Type} (body : S -> A -> res S) x rest s :
  for_each body (x :: rest) s
  = match body s x with
    | inl e => inl e
    | inr s' => for_each body rest s'
    end.
Proof. reflexivity. Qed.

Lemma steps_loop_total action_name job_name steps : forall start acc,
  forallb well_formed_step steps = true ->
  exists l, for_each (analyze_step action_name job_name)
                     (enumerate_from start steps) acc = inr l.
Proof.
  induction steps as [|step rest IH]; intros start acc Hwf; cbn [enumerate_from].
  - cbn. eauto.
  - cbn in Hwf. apply andb_true_iff in Hwf. destruct Hwf as [Hs Hrest].
    rewrite for_each_cons.
    destruct (analyze_step_total action_name job_name acc start step Hs) as [l ->].
    apply IH, Hrest.
Qed.

Lemma analyze_job_total action_name acc job_name job_config :
  well_formed_job job_config = true ->
  exists l, analyze_job action_name acc (job_name, job_config) = inr l.
Proof.
  unfold well_formed_job, analyze_job.
  destruct job_config as [| b | z | f | s | els | d]; try discriminate.
  cbn. destruct (lookup "steps" d) as [[| | | | |steps|]|]; try discriminate; cbn.
  - apply steps_loop_total.
  - eauto.
Qed.

Lemma jobs_loop_total action_name entries : forall acc,
  forallb (fun entry => well_formed_job (snd entry)) entries = true ->
  exists l, for_each (analyze_job action_name) entries acc = inr l.
Proof.
  induction entries as [|[job_name job_config] rest IH]; intros acc Hwf.
  - cbn. eauto.
  - cbn in Hwf. apply andb_true_iff in Hwf. destruct Hwf as [Hj Hrest].
    rewrite for_each_cons.
    destruct (analyze_job_total action_name acc job_name job_config Hj) as [l ->].
    apply IH, Hrest.
Qed.

(** On a well-formed document no operation of the [try] block raises. *)
Lemma find_instances_well_formed action_name workflow_data :
  well_formed workflow_data = true ->
  find_instances action_name workflow_data
  = inr (document_instances action_name workflow_data).
Proof.
  intros Hwf.
  assert (exists l, find_instances action_name workflow_data = inr l) as [l E].
  { unfold well_formed in Hwf. unfold find_instances.
    destruct workflow_data as [| b | z | f | s | els | d]; try discriminate.
    destruct d as [|kv d]; [cbn; eauto|].
    cbn [truthy py_contains]. cbn -[lookup].
    destruct (lookup "jobs" (kv :: d)) as [[| | | | | |jobs]|]; try discriminate;
      cbn -[lookup]; [|eauto].
    apply jobs_loop_total, Hwf. }
  rewrite E. f_equal. now apply find_instances_returns.
Qed.

(** In a well-formed step the test of line 76 is the substring test on the
    reference field. *)
Lemma matching_reference_mentions action_name step :
  well_formed_step step = true ->
  (mentions action_name step <-> exists reference,
      matching_reference action_name step = Some reference).
Proof.
  unfold well_formed_step, mentions, matching_reference, field.
  destruct step as [| b | z | f | s | els | d]; try discriminate.
  destruct (lookup "uses" d) as [[| | | |r| |]|]; try discriminate; intros _; cbn.
  - destruct (contains action_name r) eqn:E; split.
    + eauto.
    + intros _. eauto.
    + intros [r' [H1 H2]]. inversion H1; subst. congruence.
    + intros [r' H]. discriminate.
  - split; [intros [r' [H _]] | intros [r' H]]; discriminate.
Qed.

(** ** The exceptions of the [try] block are ordinary ones *)

Lemma ordinary_bind {A B : Type} (m : res A) (k : A -> res B) :
  ordinary m -> (forall a, ordinary (k a)) -> ordinary (bind m k).
Proof. destruct m; cbn; auto. Qed.

Lemma ordinary_contains needle v : ordinary (py_contains needle v).
Proof. destruct v; cbn; auto. Qed.

Lemma ordinary_getitem v key : ordinary (py_getitem v key).
Proof. destruct v; cbn; auto. destruct (lookup key entries); cbn; auto. Qed.

Lemma ordinary_get v key default : ordinary (py_get v key default).
Proof. destruct v; cbn; auto. destruct (lookup key entries); cbn; auto. Qed.

Lemma ordinary_items v : ordinary (py_items v).
Proof. destruct v; cbn; auto. Qed.

Lemma ordinary_iter v : ordinary (py_iter v).
Proof. destruct v; cbn; auto. Qed.

Lemma ordinary_for_each {S A : Type} (body : S -> A -> res S) xs :
  (forall s x, ordinary (body s x)) -> forall s, ordinary (for_each body xs s).
Proof.
  intros Hbody. induction xs as [|x rest IH]; intros s.
  - exact I.
  - rewrite for_each_cons. specialize (Hbody s x).
    destruct (body s x); auto.
Qed.

Create HintDb ordinary.
#[local] Hint Resolve ordinary_contains ordinary_getitem ordinary_get
  ordinary_items ordinary_iter : ordinary.

Lemma ordinary_analyze_step action_name job_name acc entry :
  ordinary (analyze_step action_name job_name acc entry).
Proof.
  destruct entry as [k step]. unfold analyze_step.
  apply ordinary_bind; auto with ordinary. intros has_uses.
  apply ordinary_bind.
  - destruct has_uses; [|exact I].
    apply ordinary_bind; auto with ordinary.
  - intros [|]; [|exact I].
    repeat (apply ordinary_bind; auto with ordinary; intros ?). exact I.
Qed.

Lemma ordinary_analyze_job action_name acc entry :
  ordinary (analyze_job action_name acc entry).
Proof.
  destruct entry as [job_name job_config]. unfold analyze_job.
  apply ordinary_bind; auto with ordinary. intros [|]; [|exact I].
  apply ordinary_bind; auto with ordinary. intros steps.
  apply ordinary_bind; auto with ordinary. intros sequence.
  apply ordinary_for_each. intros. apply ordinary_analyze_step.
Qed.

Lemma ordinary_find_instances action_name workflow_data :
  ordinary (find_instances action_name workflow_data).
Proof.
  unfold find_instances. apply ordinary_bind.
  - destruct (truthy workflow_data); [auto with ordinary | exact I].
  - intros [|]; [|exact I].
    apply ordinary_bind; auto with ordinary. intros jobs.
    apply ordinary_bind; auto with ordinary. intros entries.
    apply ordinary_for_each. intros. apply ordinary_analyze_job.
Qed.

Section Analyzer.

Context {P : Platform}.

(** The three ways through [analyze_workflow_content]. *)
Lemma analyze_run content action_name info w :
  analyze_workflow_content content action_name info w
  = if contains action_name content then
      match yaml_safe_load content with
      | inl e => mkRun (inr []) w
                   [EvSafeLoad content; parse_diagnostic info (LibraryError e)]
      | inr workflow_data =>
          match find_instances action_name workflow_data with
          | inr l => mkRun (inr l) w [EvSafeLoad content]
          | inl e => mkRun (inr []) w [EvSafeLoad content; parse_diagnostic info e]
          end
      end
    else mkRun (inr []) w [].
Proof.
  unfold analyze_workflow_content, try_except, parse_diagnostic.
  destruct (contains action_name content); cbn -[find_instances]; [|reflexivity].
  destruct (yaml_safe_load content) as [e|workflow_data];
    cbn -[find_instances]; [reflexivity|].
  pose proof (ordinary_find_instances action_name workflow_data) as Hord.
  destruct (find_instances action_name workflow_data) as [e|l]; cbn.
  - destruct e; try discriminate Hord; reflexivity.
  - reflexivity.
Qed.

(** The analyzer never raises. *)
Lemma analyze_never_raises content action_name info w :
  exists l, result (analyze_workflow_content content action_name info w) = inr l.
Proof.
  rewrite analyze_run.
  destruct (contains action_name content); [|cbn; eauto].
  destruct (yaml_safe_load content); [cbn; eauto|].
  destruct (find_instances action_name v); cbn; eauto.
Qed.

End Analyzer.

(** ** Claims about the workflow analyzer *)

Lemma enumerate_from_nth {A : Type} (xs : list A) : forall start k x,
  In (k, x) (enumerate_from start xs)
  <-> (start <= k /\ nth_error xs (k - start) = Some x).
Proof.
  induction xs as [|y rest IH]; intros start k x; cbn [enumerate_from In].
  - split; [tauto|]. intros [_ H]. destruct (k - start); discriminate.
  - rewrite IH. split.
    + intros [H|[Hle Hn]].
      * inversion H; subst. rewrite Nat.sub_diag. split; [lia | reflexivity].
      * split; [lia|]. replace (k - start) with (S (k - S start)) by lia. exact Hn.
    + intros [Hle Hn]. destruct (k - start) as [|m] eqn:E.
      * left. cbn in Hn. inversion Hn. f_equal. lia.
      * right. split; [lia|]. replace (k - S start) with m by lia. exact Hn.
Qed.

(** [enumerate] pairs each element with its zero-based position. *)
Lemma enumerate_nth {A : Type} (xs : list A) k x :
  In (k, x) (enumerate xs) <-> nth_error xs k = Some x.
Proof.
  unfold enumerate. rewrite enumerate_from_nth, Nat.sub_0_r.
  split; [tauto | intros H; split; [lia | exact H]].
Qed.

Lemma nth_error_entry {A : Type} (xs : list A) k x :
  nth_error xs k = Some x -> In x xs.
Proof. apply nth_error_In. Qed.

Lemma Forall2_map_enumerate {A B : Type} (R : A -> B -> Prop)
    (g : nat * A -> B) (xs : list A) : forall start,
  (forall k x, In x xs -> R x (g (k, x))) ->
  Forall2 R xs (map g (enumerate_from start xs)).
Proof.
  induction xs as [|x rest IH]; intros start H; cbn.
  - constructor.
  - constructor.
    + apply H. now left.
    + apply IH. intros k y Hy. apply H. now right.
Qed.

Lemma Forall2_map_right {A B : Type} (R : A -> B -> Prop) (g : A -> B)
    (xs : list A) :
  (forall x, In x xs -> R x (g x)) -> Forall2 R xs (map g xs).
Proof.
  induction xs as [|x rest IH]; intros H; cbn; constructor.
  - apply H. now left.
  - apply IH. intros y Hy. apply H. now right.
Qed.

(** A matching step contributes exactly one instance, any other step none. *)
Lemma contribution_matching action_name job_name k step reference :
  matching_reference action_name step = Some reference ->
  contribution action_name job_name (k, step)
  = [ {| job := job_name;
         step_name := display_name k step;
         action_ref := reference;
         inputs := parameters step |} ].
Proof. unfold contribution. cbn [fst snd]. now intros ->. Qed.

Lemma contribution_well_formed action_name job_name k step :
  well_formed_step step = true ->
  (mentions action_name step
   /\ exists i, contribution action_name job_name (k, step) = [i]
                /\ job i = job_name
                /\ field "uses" step = Some (action_ref i))
  \/ (~ mentions action_name step
      /\ contribution action_name job_name (k, step) = []).
Proof.
  intros Hwf. pose proof (matching_reference_mentions action_name step Hwf) as Hm.
  unfold contribution. cbn [fst snd].
  destruct (matching_reference action_name step) as [reference|] eqn:E.
  - left. split; [apply Hm; eauto|].
    eexists. split; [reflexivity|]. split; [reflexivity|]. cbn.
    unfold matching_reference in E.
    destruct (field "uses" step) as [uses|]; [|discriminate].
    destruct (py_contains action_name uses) as [e|[|]]; try discriminate.
    now inversion E.
  - right. split; [|reflexivity]. intros H. apply Hm in H. destruct H; discriminate.
Qed.

Lemma well_formed_jobs workflow_data job :
  well_formed workflow_data = true ->
  In job (job_entries workflow_data) ->
  well_formed_job (snd job) = true.
Proof.
  unfold well_formed, job_entries, field.
  destruct workflow_data as [| b | z | f | s | els | d]; try discriminate.
  destruct (lookup "jobs" d) as [[| | | | | |jobs]|]; try discriminate;
    try (intros _ []).
  intros Hall Hin. rewrite forallb_forall in Hall. now apply Hall.
Qed.

Lemma well_formed_steps job_config step :
  well_formed_job job_config = true ->
  In step (step_sequence job_config) ->
  well_formed_step step = true.
Proof.
  unfold well_formed_job, step_sequence, field.
  destruct job_config as [| b | z | f | s | els | d]; try discriminate.
  destruct (lookup "steps" d) as [[| | | | |steps|]|]; try discriminate;
    try (intros _ []).
  cbn. intros Hall Hin. rewrite forallb_forall in Hall. now apply Hall.
Qed.

Lemma contribution_reference action_name job_name entry i :
  well_formed_step (snd entry) = true ->
  In i (contribution action_name job_name entry) ->
  exists reference, action_ref i = VStr reference
                    /\ contains action_name reference = true.
Proof.
  destruct entry as [k step]. cbn [snd]. intros Hwf Hin.
  destruct (contribution_well_formed action_name job_name k step Hwf)
    as [[[reference [Hf Hc]] [j [E [_ Hj]]]] | [_ E]]; rewrite E in Hin.
  - destruct Hin as [<-|[]]. exists reference. split; [congruence | exact Hc].
  - destruct Hin.
Qed.

(** The body of the loop does not raise on a matching step. *)
Lemma analyze_step_matching action_name job_name acc k step reference :
  matching_reference action_name step = Some reference ->
  exists l, analyze_step action_name job_name acc (k, step) = inr l.
Proof.
  unfold matching_reference, field, analyze_step.
  destruct step as [| b | z | f | s | els | d]; try discriminate.
  cbn. destruct (lookup "uses" d) as [uses|]; [|discriminate]. cbn.
  destruct (py_contains action_name uses) as [e|[|]]; try discriminate.
  intros _. cbn. destruct (lookup "name" d), (lookup "with" d); cbn; eauto.
Qed.

(** C1, as amended: for every parsed workflow document of the shape the data
    model describes (a mapping whose job collection, when present, maps job
    names to mappings, whose step sequences are lists of mappings and whose
    reference fields are strings), the list the analyzer returns is the
    concatenation, job by job and step by step in document order, of what
    each step produces; a step produces exactly one instance, carrying the
    name of its job and its reference field, if and only if it has a reference field whose value
    contains the target identifier as a substring, and nothing otherwise;
    consequently the action reference of every instance returned contains
    the target identifier. *)
Theorem well_formed_document_instances
    (P : Platform) (content action_name : string) (info : file_info)
    (w : world) (workflow_data : value) :
  contains action_name content = true ->
  yaml_safe_load content = inr workflow_data ->
  well_formed workflow_data = true ->
  exists per_step : list (list (list instance)),
    result (analyze_workflow_content content action_name info w)
    = inr (concat (map (@concat instance) per_step))
    /\ Forall2
         (fun entry produced =>
            Forall2
              (fun step c =>
                 (mentions action_name step
                  /\ exists i, c = [i] /\ job i = fst entry
                               /\ field "uses" step = Some (action_ref i))
                 \/ (~ mentions action_name step /\ c = []))
              (step_sequence (snd entry)) produced)
         (job_entries workflow_data) per_step
    /\ forall i, In i (concat (map (@concat instance) per_step)) ->
         exists reference, action_ref i = VStr reference
                           /\ contains action_name reference = true.
Proof.
  intros Hin Hload Hwf.
  exists (map (fun job => map (contribution action_name (fst job))
                              (enumerate (step_sequence (snd job))))
              (job_entries workflow_data)).
  split; [|split].
  - rewrite analyze_run, Hin, Hload, (find_instances_well_formed _ _ Hwf).
    cbn [result]. f_equal. unfold document_instances.
    rewrite flat_map_concat_map, map_map. f_equal.
    apply map_ext. intros job. unfold job_contribution.
    now rewrite flat_map_concat_map.
  - apply Forall2_map_right. intros job Hjob.
    apply Forall2_map_enumerate. intros k step Hstep.
    apply contribution_well_formed.
    eapply well_formed_steps; [|exact Hstep].
    eapply well_formed_jobs; eauto.
  - intros i Hi. apply in_concat in Hi. destruct Hi as [l [Hl Hi]].
    rewrite map_map in Hl. apply in_map_iff in Hl. destruct Hl as [job [<- Hjob]].
    apply in_concat in Hi. destruct Hi as [c [Hc Hi]].
    apply in_map_iff in Hc. destruct Hc as [[k step] [<- Hstep]].
    eapply contribution_reference; [|exact Hi]. cbn [snd].
    apply enumerate_nth, nth_error_In in Hstep.
    eapply well_formed_steps; [|exact Hstep].
    eapply well_formed_jobs; eauto.
Qed.

(** The sample workflow is well formed and the statement applies to it. *)
Lemma well_formed_document_instances_witness :
  contains "a/b" Fixture.sample_text = true
  /\ @yaml_safe_load Fixture.offline Fixture.sample_text = inr Fixture.sample_document
  /\ well_formed Fixture.sample_document = true
  /\ exists per_step : list (list (list instance)),
       result (@analyze_workflow_content Fixture.offline Fixture.sample_text "a/b"
                 Fixture.info Fixture.initial)
       = inr (concat (map (@concat instance) per_step))
       /\ Forall2
            (fun entry produced =>
               Forall2
                 (fun step c =>
                    (mentions "a/b" step
                     /\ exists i, c = [i] /\ job i = fst entry
                                  /\ field "uses" step = Some (action_ref i))
                    \/ (~ mentions "a/b" step /\ c = []))
                 (step_sequence (snd entry)) produced)
            (job_entries Fixture.sample_document) per_step
       /\ forall i, In i (concat (map (@concat instance) per_step)) ->
            exists reference, action_ref i = VStr reference
                              /\ contains "a/b" reference = true.
Proof.
  split; [reflexivity | split; [reflexivity | split; [reflexivity|]]].
  apply (well_formed_document_instances Fixture.offline Fixture.sample_text "a/b"
           Fixture.info Fixture.initial Fixture.sample_document); reflexivity.
Defined.

(** C1 fails as stated: in the document below the step of job [build] has a
    reference field that contains the target, yet the analyzer returns no
    instance, because the job [broken] has a null body. *)
Lemma matching_step_without_instance :
  contains "a/b" Fixture.null_job_text = true
  /\ @yaml_safe_load Fixture.offline Fixture.null_job_text
     = inr Fixture.null_job_document
  /\ In Fixture.build_job (job_entries Fixture.null_job_document)
  /\ In Fixture.matching_step (step_sequence (snd Fixture.build_job))
  /\ mentions "a/b" Fixture.matching_step
  /\ result (@analyze_workflow_content Fixture.offline Fixture.null_job_text "a/b"
               Fixture.info Fixture.initial) = inr [].
Proof.
  repeat split; try reflexivity; cbn; auto.
  exists "a/b@v2". split; reflexivity.
Qed.

(** C5, as amended: for every file text containing the target identifier, if
    parsing the text fails, the analyzer catches the failure, reports a
    diagnostic naming the file's path and returns an empty list; if the
    parsed result is empty or absent it returns an empty list and reports
    nothing; in no case is an exception propagated to the caller. *)
Theorem parse_failure_contained
    (P : Platform) (content action_name : string) (info : file_info) (w : world) :
  contains action_name content = true ->
  (forall e, yaml_safe_load content = inl e ->
     analyze_workflow_content content action_name info w
     = mkRun (inr []) w
         [ EvSafeLoad content;
           EvPrint ("Error parsing workflow " ++ info_path info ++ ": "
                      ++ str_of_exn (LibraryError e)) ])
  /\ (forall workflow_data,
        yaml_safe_load content = inr workflow_data ->
        truthy workflow_data = false ->
        analyze_workflow_content content action_name info w
        = mkRun (inr []) w [EvSafeLoad content])
  /\ exists l, result (analyze_workflow_content content action_name info w) = inr l.
Proof.
  intros Hin. split; [|split].
  - intros e He. now rewrite analyze_run, Hin, He.
  - intros workflow_data Hd Hfalsy. rewrite analyze_run, Hin, Hd.
    unfold find_instances. now rewrite Hfalsy.
  - apply analyze_never_raises.
Qed.

(** A text with an unclosed flow sequence: the diagnostic names the path. *)
Lemma parse_failure_contained_witness :
  contains "a/b" Fixture.malformed_text = true
  /\ @analyze_workflow_content Fixture.offline Fixture.malformed_text "a/b"
       Fixture.info Fixture.initial
     = @mkRun Fixture.offline _ (inr []) Fixture.initial
         [ EvSafeLoad Fixture.malformed_text;
           EvPrint "Error parsing workflow .github/workflows/ci.yml: while parsing a flow sequence" ].
Proof.
  split; [reflexivity|].
  apply (proj1 (parse_failure_contained Fixture.offline Fixture.malformed_text "a/b"
                  Fixture.info Fixture.initial eq_refl) Fixture.scanner_error).
  reflexivity.
Defined.

(** C5 fails as stated: the text below contains the target and parses to
    [None]; the analyzer returns an empty list but reports no diagnostic. *)
Lemma empty_document_without_diagnostic :
  contains "a/b" Fixture.comment_text = true
  /\ @yaml_safe_load Fixture.offline Fixture.comment_text = inr VNone
  /\ result (@analyze_workflow_content Fixture.offline Fixture.comment_text "a/b"
               Fixture.info Fixture.initial) = inr []
  /\ forall line,
       ~ In (EvPrint line)
            (trace (@analyze_workflow_content Fixture.offline Fixture.comment_text
                      "a/b" Fixture.info Fixture.initial)).
Proof.
  repeat split. intros line [H|[]]. discriminate.
Qed.

(** C6: for every file text in which the target action identifier does not
    appear as a substring, the analyzer returns an empty instance list and
    does nothing else: the parser is not called and nothing is reported,
    whatever the parser would have made of the text. *)
Theorem fast_path_rejection
    (P : Platform) (content action_name : string) (info : file_info) (w : world) :
  contains action_name content = false ->
  analyze_workflow_content content action_name info w = mkRun (inr []) w [].
Proof. intros Hin. now rewrite analyze_run, Hin. Qed.

(** A malformed text that does not mention the target: the parser, which
    would fail on it, is never called. *)
Lemma fast_path_rejection_witness :
  contains "a/b" Fixture.unrelated_malformed_text = false
  /\ @yaml_safe_load Fixture.offline Fixture.unrelated_malformed_text
     = inl Fixture.scanner_error
  /\ @analyze_workflow_content Fixture.offline Fixture.unrelated_malformed_text
       "a/b" Fixture.info Fixture.initial
     = @mkRun Fixture.offline _ (inr []) Fixture.initial [].
Proof.
  split; [reflexivity | split; [reflexivity|]].
  apply (fast_path_rejection Fixture.offline). reflexivity.
Defined.

(** C9: the body of the loop over the steps, run on a matching step with
    index [k], appends one instance whose step name is the value of the
    step's name field when the field is present and ["Step <k+1>"] when it is
    absent; and whenever the analysis of a parsed document runs to its
    [return], the list returned is the concatenation of the contributions of
    the steps, each step paired with its zero-based position [k] in the step
    sequence of its job, so that the step at position [k] of a job, when it
    matches, has its instance in the list under that name. *)
Theorem step_display_name
    (P : Platform) (content action_name : string) (info : file_info)
    (w : world) (workflow_data : value) (l : list instance) :
  contains action_name content = true ->
  yaml_safe_load content = inr workflow_data ->
  find_instances action_name workflow_data = inr l ->
  (forall job_name acc k step reference,
     matching_reference action_name step = Some reference ->
     analyze_step action_name job_name acc (k, step)
     = inr (acc ++ [ {| job := job_name;
                        step_name := match field "name" step with
                                     | Some name => name
                                     | None => VStr ("Step " ++ str_of_nat (k + 1))
                                     end;
                        action_ref := reference;
                        inputs := parameters step |} ])%list)
  /\ result (analyze_workflow_content content action_name info w) = inr l
  /\ l = flat_map (fun job => flat_map (contribution action_name (fst job))
                                (enumerate (step_sequence (snd job))))
                  (job_entries workflow_data)
  /\ forall job k step reference,
       In job (job_entries workflow_data) ->
       nth_error (step_sequence (snd job)) k = Some step ->
       matching_reference action_name step = Some reference ->
       exists i, contribution action_name (fst job) (k, step) = [i]
                 /\ In i l
                 /\ step_name i = match field "name" step with
                                  | Some name => name
                                  | None => VStr ("Step " ++ str_of_nat (k + 1))
                                  end.
Proof.
  intros Hin Hload Hfind.
  pose proof (find_instances_returns _ _ _ Hfind) as Hl.
  split; [|split; [|split]].
  - intros job_name acc k step reference Hmatch.
    destruct (analyze_step_matching action_name job_name acc k step reference Hmatch)
      as [l' Hl'].
    rewrite Hl'. f_equal. apply analyze_step_returns in Hl'. rewrite Hl'.
    now rewrite (contribution_matching _ _ _ _ _ Hmatch).
  - now rewrite analyze_run, Hin, Hload, Hfind.
  - exact Hl.
  - intros job k step reference Hjob Hstep Hmatch.
    eexists. split; [apply contribution_matching; exact Hmatch|].
    split; [|reflexivity].
    rewrite Hl. unfold document_instances. apply in_flat_map.
    exists job. split; [exact Hjob|]. unfold job_contribution.
    apply in_flat_map. exists (k, step). split; [now apply enumerate_nth|].
    rewrite (contribution_matching _ _ _ _ _ Hmatch). now left.
Qed.

(** The sample workflow: the first matching step is named, the second and
    the third are not. *)
Lemma step_display_name_witness :
  contains "a/b" Fixture.sample_text = true
  /\ @yaml_safe_load Fixture.offline Fixture.sample_text = inr Fixture.sample_document
  /\ find_instances "a/b" Fixture.sample_document = inr Fixture.sample_instances
  /\ result (@analyze_workflow_content Fixture.offline Fixture.sample_text "a/b"
               Fixture.info Fixture.initial)
     = inr [ mkInstance (VStr "build") (VStr "Fetch") (VStr "a/b@v2") (VDict []);
             mkInstance (VStr "build") (VStr "Step 2") (VStr "a/b-suffix@v1") (VDict []);
             mkInstance (VStr "build") (VStr "Step 3") (VStr "x/a/b@v1")
                        (VDict [ (VStr "depth", VInt 1) ]) ].
Proof.
  split; [reflexivity | split; [reflexivity | split; [reflexivity|]]].
  apply (proj1 (proj2 (step_display_name Fixture.offline Fixture.sample_text "a/b"
                         Fixture.info Fixture.initial Fixture.sample_document
                         Fixture.sample_instances eq_refl eq_refl eq_refl))).
Defined.

(** C10: there is a workflow document whose text contains the target, in
    which the job [build] holds a step matching the target and the job
    [broken] has a null body, and for which the analyzer returns an empty
    list: the loop has accumulated the instance of [build] when the test
    ['steps' in job_config] raises [TypeError] on the null body; the blanket
    handler reports the error and returns an empty list. *)
Theorem null_job_discards_instances
    (P : Platform) (content : string) (info : file_info) (w : world) :
  contains "a/b" content = true ->
  yaml_safe_load content = inr Fixture.null_job_document ->
  job_entries Fixture.null_job_document = [ Fixture.build_job; (VStr "broken", VNone) ]
  /\ step_sequence (snd Fixture.build_job) = [ Fixture.matching_step ]
  /\ matching_reference "a/b" Fixture.matching_step = Some (VStr "a/b@v2")
  /\ analyze_job "a/b" [] Fixture.build_job
     = inr [ mkInstance (VStr "build") (VStr "Step 1") (VStr "a/b@v2") (VDict []) ]
  /\ py_contains "steps" VNone = inl TypeError
  /\ find_instances "a/b" Fixture.null_job_document = inl TypeError
  /\ analyze_workflow_content content "a/b" info w
     = mkRun (inr []) w
         [ EvSafeLoad content;
           EvPrint ("Error parsing workflow " ++ info_path info ++ ": "
                      ++ str_of_exn TypeError) ].
Proof.
  intros Hin Hload. repeat split.
  now rewrite analyze_run, Hin, Hload.
Qed.

(** The text of the document, parsed by the scripted parser. *)
Lemma null_job_discards_instances_witness :
  contains "a/b" Fixture.null_job_text = true
  /\ @yaml_safe_load Fixture.offline Fixture.null_job_text
     = inr Fixture.null_job_document
  /\ @analyze_workflow_content Fixture.offline Fixture.null_job_text "a/b"
       Fixture.info Fixture.initial
     = @mkRun Fixture.offline _ (inr []) Fixture.initial
         [ EvSafeLoad Fixture.null_job_text;
           EvPrint "Error parsing workflow .github/workflows/ci.yml: TypeError" ].
Proof.
  split; [reflexivity | split; [reflexivity|]].
  apply (null_job_discards_instances Fixture.offline Fixture.null_job_text
           Fixture.info Fixture.initial); reflexivity.
Defined.

(** ** The search executor and the content fetcher, run by run *)

Section Runs.

Context {P : Platform}.

(** Every way through [search_for_action], by what the service answers. *)
Lemma search_run org action_name credential broader_search w :
  search_for_action org action_name credential broader_search w
  = let url := search_url org action_name broader_search in
    let headers := request_headers credential in
    let w1 := snd (requests_get url headers w) in
    let sent := [searching_line org; EvGet url headers] in
    match fst (requests_get url headers w) with
    | inl e => mkRun (inl (LibraryError e)) w1 sent
    | inr r =>
        if error_status r then
          mkRun (inr []) w1
            (sent ++ [ EvPrint ("Error searching for actions: "
                                  ++ str_of_exn (HTTPError r));
                       EvPrint ("Response: " ++ text r) ])
        else
          match json r with
          | inl e => mkRun (inl (LibraryError e)) w1 sent
          | inr search_results =>
              if rate_limited search_results then
                match reset_time r with
                | inl e => mkRun (inl (LibraryError e)) w1 sent
                | inr reset =>
                    mkRun (inr []) w1
                      (sent ++ [ EvPrint ("Rate limit exceeded. Try again in "
                                            ++ str_of_Z (Z.max 0 (reset - time_time w1))
                                            ++ " seconds.") ])
                end
              else
                mkRun (inr (match json_items search_results with
                            | Some found_items => found_items
                            | None => []
                            end)) w1 sent
          end
    end.
Proof.
  unfold search_for_action, try_except, get, raise_for_status, error_status,
    reset_time, searching_line, print, emit, lift, now.
  cbn. destruct (requests_get _ _ w) as [[e|r] w1]; cbn; [reflexivity|].
  destruct ((400 <=? status_code r)%Z && (status_code r <? 600)%Z); cbn;
    [reflexivity|].
  destruct (json r) as [e|search_results]; cbn; [reflexivity|].
  destruct (rate_limited search_results); cbn; [|reflexivity].
  destruct (x_ratelimit_reset r) as [header|]; cbn; [|reflexivity].
  destruct (int_of_str header); cbn; reflexivity.
Qed.

(** An exception leaves [search_for_action] only when it comes from a
    library: the request itself, the decoding of the body, [int]. *)
Lemma search_raises org action_name credential broader_search w e :
  result (search_for_action org action_name credential broader_search w) = inl e ->
  exists cause, e = LibraryError cause.
Proof.
  rewrite search_run. cbn zeta.
  destruct (fst (requests_get _ _ w)) as [e0|r]; cbn.
  - intros H; inversion H; eauto.
  - destruct (error_status r); cbn; [discriminate|].
    destruct (json r) as [e0|search_results]; cbn; [intros H; inversion H; eauto|].
    destruct (rate_limited search_results); cbn; [|discriminate].
    destruct (reset_time r); cbn; [intros H; inversion H; eauto | discriminate].
Qed.

(** The exceptions of [get_file_content] are ordinary ones, and the only
    events are the request. *)
Lemma get_file_content_run url credential w :
  let fetched := get_file_content url credential w in
  ordinary (result fetched)
  /\ trace fetched = [EvGet url (request_headers credential)]
  /\ final fetched = snd (requests_get url (request_headers credential) w).
Proof.
  unfold get_file_content, get, raise_for_status, lift, member. cbn.
  destruct (requests_get _ _ w) as [[e|r] w1]; cbn; [auto|].
  destruct ((400 <=? status_code r)%Z && (status_code r <? 600)%Z); cbn; [auto|].
  destruct (json r) as [e|content_info]; cbn; [auto|].
  destruct (json_encoding content_info) as [encoding|]; cbn; [|auto].
  destruct (encoding =? "base64")%string; cbn.
  - destruct (json_content content_info) as [content|]; cbn; [|auto].
    destruct (b64decode_utf8 content); cbn; auto.
  - destruct (json_content content_info); cbn; auto.
Qed.

(** An HTTP error status makes the fetch raise [HTTPError]. *)
Lemma get_file_content_error_status url credential w r :
  fst (requests_get url (request_headers credential) w) = inr r ->
  error_status r = true ->
  result (get_file_content url credential w) = inl (HTTPError r).
Proof.
  unfold get_file_content, get, raise_for_status, error_status, lift. cbn.
  destruct (requests_get _ _ w) as [[e|r'] w1]; cbn; [discriminate|].
  intros H; inversion H; subst. now intros ->.
Qed.

End Runs.

(** ** One iteration of the scan loop *)

Section Scan.

Context {P : Platform}.

Lemma analyze_final content action_name info w :
  final (analyze_workflow_content content action_name info w) = w.
Proof.
  rewrite analyze_run.
  destruct (contains action_name content); [|reflexivity].
  destruct (yaml_safe_load content); [reflexivity|].
  destruct (find_instances action_name v); reflexivity.
Qed.

Lemma process_item_run args credential total_files st item w :
  process_item args credential total_files st item w
  = mkRun (inr (absorb item (found_instances args credential item w) st))
          (world_after credential item w)
          (item_trace args credential total_files (files_processed st + 1) item w).
Proof.
  unfold process_item, found_instances, item_trace, world_after, absorb,
    try_except, item_info, progress_line, processing_error, found_line.
  destruct (get_file_content_run (item_url item) credential w) as [Hord _].
  cbn -[get_file_content analyze_workflow_content str_of_nat].
  destruct (result (get_file_content (item_url item) credential w))
    as [e|content] eqn:Efetch.
  - cbn -[get_file_content str_of_nat]. cbn in Hord. rewrite Hord.
    cbn -[get_file_content str_of_nat]. reflexivity.
  - cbn -[get_file_content analyze_workflow_content str_of_nat].
    set (analyzed := analyze_workflow_content content (action args) _ _).
    destruct (analyze_never_raises content (action args)
                (mkFileInfo (item_repository item) (item_path item)
                            (basename (item_path item)))
                (final (get_file_content (item_url item) credential w)))
      as [l Hl].
    fold analyzed in Hl.
    assert (final analyzed = final (get_file_content (item_url item) credential w))
      as Hfinal by apply analyze_final.
    rewrite Hl. destruct l as [|i l];
      cbn -[get_file_content analyze_workflow_content str_of_nat];
      rewrite Hfinal, <- ?app_assoc; reflexivity.
Qed.

End Scan.

(** ** The scan loop as a whole *)

Section Loop.

Context {P : Platform}.

Lemma absorb_files_processed item instances st :
  files_processed (absorb item instances st) = files_processed st + 1.
Proof. destruct instances; reflexivity. Qed.

Lemma scan_loop_run args credential total_files items : forall st w,
  for_each (process_item args credential total_files) items st w
  = mkRun (inr (absorb_all (scan_log args credential items w) st))
          (scan_world credential items w)
          (scan_trace args credential total_files (files_processed st) items w).
Proof.
  induction items as [|item rest IH]; intros st w.
  - reflexivity.
  - cbn [for_each scan_log scan_trace scan_world absorb_all fold_left].
    change (for_each (process_item args credential total_files) (item :: rest) st w)
      with (bind (process_item args credential total_files st item)
                 (fun st' => for_each (process_item args credential total_files)
                                      rest st') w).
    unfold bind, Monad_IO. rewrite process_item_run. cbn [result final trace].
    rewrite IH, absorb_files_processed. reflexivity.
Qed.

(** The scan loop runs over all the candidates and never raises. *)
Lemma scan_run args credential items w :
  scan args credential items w
  = mkRun (inr (absorb_all (scan_log args credential items w) (mkScan [] 0 0)))
          (scan_world credential items w)
          (scan_trace args credential (length items) 0 items w).
Proof. unfold scan. now rewrite scan_loop_run. Qed.

End Loop.

(** ** The aggregate *)

Lemma has_key_In key d : has_key key d = true <-> In key (keys d).
Proof.
  unfold has_key, keys. rewrite existsb_exists, in_map_iff. split.
  - intros [entry [Hin E]]. apply String.eqb_eq in E. eauto.
  - intros [entry [E Hin]]. exists entry. split; [exact Hin|].
    now apply String.eqb_eq.
Qed.

Lemma keys_append_usage key u d : keys (append_usage key u d) = keys d.
Proof.
  unfold keys, append_usage. rewrite map_map. apply map_ext.
  intros entry. now destruct (String.eqb key (fst entry)).
Qed.

Lemma recorded_app d1 d2 : recorded (d1 ++ d2) = recorded d1 + recorded d2.
Proof. unfold recorded. now rewrite map_app, list_sum_app. Qed.

Lemma recorded_append_absent key u d :
  ~ In key (keys d) -> append_usage key u d = d.
Proof.
  induction d as [|[k us] rest IH]; cbn; intros Hnot; [reflexivity|].
  destruct (String.eqb_spec key k) as [->|Hne]; [tauto|].
  f_equal. apply IH. tauto.
Qed.

Lemma recorded_cons k us rest :
  recorded ((k, us) :: rest) = length us + recorded rest.
Proof. reflexivity. Qed.

Lemma append_usage_cons key u k us rest :
  append_usage key u ((k, us) :: rest)
  = (if String.eqb key k then (k, (us ++ [u])%list) else (k, us))
      :: append_usage key u rest.
Proof. reflexivity. Qed.

Lemma recorded_append_usage key u d :
  NoDup (keys d) -> In key (keys d) ->
  recorded (append_usage key u d) = recorded d + 1.
Proof.
  induction d as [|[k us] rest IH]; intros Hnd Hin; [destruct Hin|].
  cbn in Hnd, Hin. inversion Hnd as [|? ? Hk Hrest]; subst.
  rewrite append_usage_cons, recorded_cons.
  destruct (String.eqb_spec key k) as [->|Hne].
  - rewrite (recorded_append_absent k u rest Hk), recorded_cons, length_app.
    cbn. lia.
  - destruct Hin as [Hin|Hin]; [congruence|].
    rewrite recorded_cons, (IH Hrest Hin). lia.
Qed.

Lemma recorded_fold_append key file_name file_path instances : forall d,
  NoDup (keys d) -> In key (keys d) ->
  let d' := fold_left (fun d instance =>
                         append_usage key (mkUsage file_name file_path instance) d)
                      instances d in
  keys d' = keys d /\ recorded d' = recorded d + length instances.
Proof.
  induction instances as [|i rest IH]; intros d Hnd Hin; cbn zeta;
    cbn [fold_left length].
  - split; [reflexivity | lia].
  - destruct (IH (append_usage key (mkUsage file_name file_path i) d)) as [Hk Hr].
    + now rewrite keys_append_usage.
    + now rewrite keys_append_usage.
    + cbn zeta in Hk, Hr. rewrite Hk, Hr, keys_append_usage.
      rewrite recorded_append_usage by assumption. split; [reflexivity | lia].
Qed.

Lemma record_usages_count repo_name file_name file_path instances d :
  NoDup (keys d) ->
  NoDup (keys (record_usages repo_name file_name file_path instances d))
  /\ recorded (record_usages repo_name file_name file_path instances d)
     = recorded d + length instances.
Proof.
  intros Hnd. unfold record_usages.
  destruct (has_key repo_name d) eqn:E.
  - apply has_key_In in E.
    destruct (recorded_fold_append repo_name file_name file_path instances d Hnd E)
      as [Hk Hr]. cbn zeta in Hk, Hr. now rewrite Hk, Hr.
  - assert (~ In repo_name (keys d)) as Hnot.
    { intros H. apply has_key_In in H. congruence. }
    assert (NoDup (keys (d ++ [(repo_name, [])]))) as Hnd'.
    { unfold keys. rewrite map_app. cbn.
      apply NoDup_app; [exact Hnd | repeat constructor; auto |].
      intros k Hk [<-|[]]. exact (Hnot Hk). }
    assert (In repo_name (keys (d ++ [(repo_name, [])]))) as Hin.
    { unfold keys. rewrite map_app. apply in_or_app. right. now left. }
    destruct (recorded_fold_append repo_name file_name file_path instances _ Hnd' Hin)
      as [Hk Hr]. cbn zeta in Hk, Hr. rewrite Hk, Hr, recorded_app.
    split; [exact Hnd'|]. rewrite recorded_cons. cbn. lia.
Qed.

Lemma absorb_consistent item instances st :
  consistent st -> consistent (absorb item instances st).
Proof.
  intros [Hnd Ht]. destruct instances as [|i l]; [split; assumption|].
  unfold absorb, consistent. cbn [usage_by_repo total_usages].
  destruct (record_usages_count (item_repository item) (basename (item_path item))
              (item_path item) (i :: l) (usage_by_repo st) Hnd) as [Hnd' Hr].
  split; [exact Hnd'|]. rewrite Hr, Ht. reflexivity.
Qed.

Lemma absorb_all_consistent log : forall st,
  consistent st -> consistent (absorb_all log st).
Proof.
  induction log as [|entry rest IH]; intros st H; [exact H|].
  cbn. apply IH. now apply absorb_consistent.
Qed.

(** C8: the scan loop completes for every list of candidates, whatever the
    remote service answers, and when it has completed the total usage count
    equals the sum, over the repositories of the aggregate, of the number of
    entries stored for the repository. *)
Theorem total_is_sum_of_counts
    (P : Platform) (args : arguments) (credential : string)
    (items : list candidate) (w : world) :
  exists st,
    result (scan args credential items w) = inr st
    /\ total_usages st
       = list_sum (map (fun entry => length (snd entry)) (usage_by_repo st)).
Proof.
  eexists. split; [now rewrite scan_run|].
  apply (absorb_all_consistent _ (mkScan [] 0 0)).
  split; [constructor | reflexivity].
Qed.

(** ** How [main] ends *)

Section Main.

Context {P : Platform}.

Lemma absorb_all_files_processed log : forall st,
  files_processed (absorb_all log st) = files_processed st + length log.
Proof.
  induction log as [|entry rest IH]; intros st; cbn; [lia|].
  unfold absorb_all in IH. rewrite IH, absorb_files_processed. lia.
Qed.

Lemma scan_log_length args credential items : forall w,
  length (scan_log args credential items w) = length items.
Proof. induction items; intros w; cbn; auto. Qed.

(** How [main] ends once a token is given: with the exception of the search,
    or with that of the report writer, or normally. *)
Lemma main_result args w :
  no_token (token args) = false ->
  let searched := search_for_action (org args) (action args) (credential_of args)
                    (broad_search args) w in
  result (main args w)
  = match result searched with
    | inl e => inl e
    | inr items =>
        let scanned := scan args (credential_of args) items (final searched) in
        match result scanned with
        | inl e => inl e
        | inr st =>
            match result (write_report args st (final scanned)) with
            | inl e => inl e
            | inr _ => inr tt
            end
        end
    end.
Proof.
  intros Htoken. unfold main, credential_of. rewrite Htoken.
  cbn -[search_for_action scan write_report str_of_nat].
  destruct (result (search_for_action _ _ _ _ w)) as [e|items]; [reflexivity|].
  cbn -[search_for_action scan write_report str_of_nat].
  destruct (result (scan _ _ items _)) as [e|st]; [reflexivity|].
  cbn -[search_for_action scan write_report str_of_nat].
  destruct (result (write_report args st _)) as [e|[]]; reflexivity.
Qed.

(** The configuration error: no token, status 1, nothing requested. *)
Lemma missing_token_exits args w :
  no_token (token args) = true ->
  main args w
  = mkRun (inl (SystemExit 1)) w
      [ EvPrint "Error: GitHub token is required. Set GITHUB_TOKEN environment variable or use --token." ].
Proof. intros Htoken. unfold main. rewrite Htoken. reflexivity. Qed.

End Main.

(** ** Order of the repositories and of the entries *)

Lemma compare_as_OT a : forall b, String.compare a b = String_as_OT.compare a b.
Proof. induction a; destruct b; simpl; auto. Qed.

Lemma leb_cases a b : String.leb a b = true <-> a = b \/ String_as_OT.lt a b.
Proof.
  unfold String.leb, String_as_OT.lt. rewrite compare_as_OT.
  pose proof (String_as_OT.compare_spec a b) as Hc. unfold CompSpec in Hc.
  destruct Hc as [E|L|G]; split; auto.
  - discriminate.
  - intros [E|L]; [|discriminate]. subst.
    exfalso. exact (StrictOrder_Irreflexive _ G).
Qed.

Lemma string_leb_trans a b c :
  String.leb a b = true -> String.leb b c = true -> String.leb a c = true.
Proof.
  rewrite !leb_cases. intros [->|Hab] [->|Hbc]; auto.
  right. exact (StrictOrder_Transitive _ _ _ Hab Hbc).
Qed.

Lemma leb_distinct_ltb a b :
  String.leb a b = true -> a <> b -> String.ltb a b = true.
Proof.
  unfold String.leb, String.ltb. intros Hle Hne.
  destruct (String.compare a b) eqn:E; try discriminate; [|reflexivity].
  apply String.compare_eq_iff in E. contradiction.
Qed.

Lemma sorted_permutation d : Permutation d (sorted d).
Proof. apply RepoSort.Permuted_sort. Qed.

Lemma sorted_strongly d :
  StronglySorted (fun a b => RepoOrder.leb a b = true) (sorted d).
Proof.
  apply RepoSort.StronglySorted_sort.
  intros a b c. unfold RepoOrder.leb, is_true. apply string_leb_trans.
Qed.

Lemma strongly_sorted_strict l :
  NoDup (keys l) ->
  StronglySorted (fun a b => RepoOrder.leb a b = true) l ->
  StronglySorted before l.
Proof.
  induction 2 as [|a rest Hrest IH Hall]; constructor.
  - apply IH. now inversion H.
  - inversion H as [|? ? Hnot _]; subst.
    rewrite Forall_forall in *. intros b Hb. apply leb_distinct_ltb.
    + now apply Hall.
    + intros E. apply Hnot. unfold keys. rewrite E. now apply in_map.
Qed.

(** A dictionary with distinct keys, sorted: strictly increasing keys. *)
Lemma sorted_before d : NoDup (keys d) -> StronglySorted before (sorted d).
Proof.
  intros Hnd. apply strongly_sorted_strict; [|apply sorted_strongly].
  unfold keys. eapply Permutation_NoDup; [|exact Hnd].
  apply Permutation_map, sorted_permutation.
Qed.

Lemma usages_of_entry d : forall k us,
  NoDup (keys d) -> In (k, us) d -> usages_of k d = us.
Proof.
  induction d as [|[k0 us0] rest IH]; intros k us Hnd Hin; [destruct Hin|].
  cbn in Hnd. inversion Hnd as [|? ? Hnot Hrest]; subst. cbn [usages_of].
  destruct Hin as [E|Hin].
  - inversion E; subst. now rewrite String.eqb_refl.
  - destruct (String.eqb_spec k k0) as [->|Hne].
    + exfalso. apply Hnot. change k0 with (fst (k0, us)). now apply in_map.
    + now apply IH.
Qed.

Lemma usages_of_present d : forall k,
  usages_of k d <> [] -> In (k, usages_of k d) d.
Proof.
  induction d as [|[k0 us0] rest IH]; intros k Hne; cbn [usages_of] in *;
    [congruence|].
  destruct (String.eqb_spec k k0) as [E|Hk]; [subst; now left|].
  right. now apply IH.
Qed.

Lemma usages_of_append_usage key u d : forall repo,
  usages_of repo (append_usage key u d)
  = if String.eqb repo key && has_key key d
    then (usages_of repo d ++ [u])%list
    else usages_of repo d.
Proof.
  induction d as [|[k0 us0] rest IH]; intros repo.
  - cbn. now rewrite andb_false_r.
  - rewrite append_usage_cons. unfold has_key. cbn [existsb fst usages_of].
    fold (has_key key rest).
    destruct (String.eqb_spec repo k0) as [->|Hne].
    + destruct (String.eqb_spec key k0) as [->|Hk].
      * cbn [usages_of]. now rewrite String.eqb_refl.
      * cbn [usages_of]. rewrite String.eqb_refl.
        destruct (String.eqb_spec k0 key) as [E|_]; [congruence | reflexivity].
    + destruct (String.eqb_spec key k0) as [->|Hk].
      * cbn [usages_of]. destruct (String.eqb_spec repo k0) as [E|_]; [congruence|].
        rewrite IH. cbn [orb].
        now destruct (String.eqb_spec repo k0) as [E|_]; [congruence|].
      * cbn [usages_of]. destruct (String.eqb_spec repo k0) as [E|_]; [congruence|].
        rewrite IH. reflexivity.
Qed.

Lemma usages_of_fold_append key file_name file_path instances : forall d repo,
  has_key key d = true ->
  usages_of repo
    (fold_left (fun d instance =>
                  append_usage key (mkUsage file_name file_path instance) d)
               instances d)
  = if String.eqb repo key
    then (usages_of repo d ++ map (mkUsage file_name file_path) instances)%list
    else usages_of repo d.
Proof.
  induction instances as [|i rest IH]; intros d repo Hkey; cbn [fold_left map].
  - rewrite app_nil_r. now destruct (String.eqb repo key).
  - rewrite IH.
    + rewrite usages_of_append_usage, Hkey, andb_true_r.
      destruct (String.eqb repo key); [|reflexivity].
      now rewrite <- app_assoc.
    + apply has_key_In. rewrite keys_append_usage. now apply has_key_In.
Qed.

Lemma usages_of_new_key key d repo :
  has_key key d = false ->
  usages_of repo (d ++ [(key, [])]) = usages_of repo d.
Proof.
  intros Hkey. induction d as [|[k0 us0] rest IH]; cbn.
  - now destruct (String.eqb repo key).
  - unfold has_key in Hkey. cbn in Hkey. apply orb_false_iff in Hkey.
    destruct Hkey as [_ Hrest].
    destruct (String.eqb repo k0); [reflexivity|]. now apply IH.
Qed.

Lemma usages_of_record repo_name file_name file_path instances d repo :
  usages_of repo (record_usages repo_name file_name file_path instances d)
  = if String.eqb repo repo_name
    then (usages_of repo d ++ map (mkUsage file_name file_path) instances)%list
    else usages_of repo d.
Proof.
  unfold record_usages. destruct (has_key repo_name d) eqn:E.
  - now apply usages_of_fold_append.
  - rewrite usages_of_fold_append.
    + now rewrite usages_of_new_key.
    + apply has_key_In. unfold keys. rewrite map_app. apply in_or_app.
      right. now left.
Qed.

Lemma usages_of_absorb item instances st repo :
  usages_of repo (usage_by_repo (absorb item instances st))
  = (usages_of repo (usage_by_repo st) ++ discovered repo [(item, instances)])%list.
Proof.
  unfold discovered. cbn [flat_map fst snd]. rewrite app_nil_r.
  destruct instances as [|i l].
  - cbn [absorb usage_by_repo map].
    destruct (String.eqb repo (item_repository item)); now rewrite app_nil_r.
  - unfold absorb. cbn [usage_by_repo]. rewrite usages_of_record.
    destruct (String.eqb repo (item_repository item)); [reflexivity|].
    now rewrite app_nil_r.
Qed.

Lemma discovered_cons repo entry log :
  discovered repo (entry :: log)
  = (discovered repo [entry] ++ discovered repo log)%list.
Proof. unfold discovered. cbn [flat_map]. now rewrite app_nil_r. Qed.

Lemma usages_of_absorb_all log : forall st repo,
  usages_of repo (usage_by_repo (absorb_all log st))
  = (usages_of repo (usage_by_repo st) ++ discovered repo log)%list.
Proof.
  induction log as [|[item instances] rest IH]; intros st repo.
  - cbn. now rewrite app_nil_r.
  - cbn [absorb_all fold_left fst snd]. fold (absorb_all rest (absorb item instances st)).
    rewrite IH, usages_of_absorb, (discovered_cons repo (item, instances) rest).
    now rewrite app_assoc.
Qed.

(** ** The report, chunk by chunk *)

Section Report.

Context {P : Platform}.

Lemma writes_ret {A : Type} (a : A) : writes (ret a) a [].
Proof. intros w r _. reflexivity. Qed.

Lemma writes_write s : writes (write s) tt [s].
Proof. intros w r _. reflexivity. Qed.

Lemma writes_items v : writes (lift (py_items v)) (parameter_entries v) [].
Proof. intros w r. destruct v; cbn; try discriminate. reflexivity. Qed.

Lemma writes_bind {A B : Type} (m : IO A) (k : A -> IO B) a b c1 c2 :
  writes m a c1 -> writes (k a) b c2 -> writes (bind m k) b (app c1 c2).
Proof.
  intros Hm Hk w r. cbn. destruct (result (m w)) as [e|a'] eqn:E; [discriminate|].
  cbn. intros Hr. specialize (Hm w a' E). rewrite Hm in *. cbn in *.
  inversion E; subst a'. specialize (Hk w r Hr). rewrite Hk. cbn.
  now rewrite map_app.
Qed.

Lemma writes_for_each {A : Type} (body : unit -> A -> IO unit)
    (f : A -> list string) :
  (forall x, writes (body tt x) tt (f x)) ->
  forall xs, writes (for_each body xs tt) tt (flat_map f xs).
Proof.
  intros Hbody. induction xs as [|x rest IH]; cbn [for_each flat_map].
  - apply writes_ret.
  - eapply writes_bind; [apply Hbody | exact IH].
Qed.

Lemma flat_map_single {A B : Type} (g : A -> B) (xs : list A) :
  flat_map (fun x => [g x]) xs = map g xs.
Proof. induction xs as [|x rest IH]; cbn; [reflexivity | now rewrite IH]. Qed.

Lemma writes_inputs u : writes (write_inputs u) tt (configuration_chunks u).
Proof.
  unfold write_inputs, configuration_chunks.
  destruct (truthy (inputs (found u))); [|apply writes_ret].
  rewrite <- flat_map_single.
  apply (writes_bind _ _ tt tt [_] _ (writes_write _)).
  apply (writes_bind _ _ (parameter_entries (inputs (found u))) tt [] _
           (writes_items _)).
  apply writes_for_each. intros entry. apply writes_write.
Qed.

Lemma writes_instance entry :
  writes (write_instance tt entry) tt (instance_chunks entry).
Proof.
  destruct entry as [i u]. unfold write_instance, instance_chunks. cbn [fst snd].
  repeat (apply (writes_bind _ _ tt tt [_]); [apply writes_write|]).
  apply (writes_bind _ _ tt tt); [apply writes_inputs | apply writes_write].
Qed.

Lemma writes_repository entry :
  writes (write_repository tt entry) tt (repository_chunks entry).
Proof.
  destruct entry as [repo instances]. unfold write_repository, repository_chunks.
  cbn [fst snd].
  repeat (apply (writes_bind _ _ tt tt [_]); [apply writes_write|]).
  apply (writes_bind _ _ tt tt); [|apply writes_write].
  apply writes_for_each. apply writes_instance.
Qed.

Lemma writes_header args repos_with_action total :
  writes (write_header args repos_with_action total) tt
         (header_chunks args repos_with_action total).
Proof.
  unfold write_header, header_chunks.
  repeat (apply (writes_bind _ _ tt tt [_]); [apply writes_write|]).
  apply writes_write.
Qed.

Lemma sorted_nil d : sorted d = [] <-> d = [].
Proof.
  split; intros H.
  - pose proof (sorted_permutation d) as Hp. rewrite H in Hp.
    now apply Permutation_nil, Permutation_sym.
  - subst. reflexivity.
Qed.

(** When the writer returns, the file holds the header followed by the body
    for the repositories in sorted order. *)
Lemma write_report_run args st w :
  result (write_report args st w) = inr tt ->
  write_report args st w
  = mkRun (inr tt) w
      (EvOpen (output args)
         :: map EvWrite
              (app (header_chunks args (length (usage_by_repo st)) (total_usages st))
                   (report_body (sorted (usage_by_repo st))))
         ++ [EvClose])%list.
Proof.
  unfold write_report, with_open. cbn [result]. intros Hr.
  match goal with
  | |- context [bind ?m ?k w] =>
      assert (writes (bind m k) tt
                (app (header_chunks args (length (usage_by_repo st)) (total_usages st))
                     (report_body (sorted (usage_by_repo st))))) as Hw
  end.
  { apply (writes_bind _ _ tt tt); [apply writes_header|].
    unfold report_body.
    destruct (usage_by_repo st) as [|entry rest] eqn:E.
    - cbn. apply writes_write.
    - destruct (sorted (entry :: rest)) as [|g gs] eqn:Es.
      + apply (proj1 (sorted_nil _)) in Es. discriminate Es.
      + cbn [length Nat.ltb Nat.leb]. unfold detail_heading.
        repeat (apply (writes_bind _ _ tt tt [_]); [apply writes_write|]).
        apply writes_for_each. apply writes_repository. }
  rewrite (Hw w tt Hr). reflexivity.
Qed.

End Report.

(** ** When the report writer returns *)

Section Returns.

Context {P : Platform}.

Lemma succeeds_ret {A : Type} (a : A) : succeeds (ret a).
Proof. intros w. cbn. eauto. Qed.

Lemma succeeds_write s : succeeds (write s).
Proof. intros w. cbn. eauto. Qed.

Lemma succeeds_bind {A B : Type} (m : IO A) (k : A -> IO B) :
  succeeds m -> (forall a, succeeds (k a)) -> succeeds (bind m k).
Proof.
  intros Hm Hk w. cbn. destruct (Hm w) as [a Ha]. rewrite Ha. cbn.
  apply Hk.
Qed.

Lemma succeeds_for_each {A : Type} (body : unit -> A -> IO unit) xs :
  (forall x, In x xs -> succeeds (body tt x)) ->
  succeeds (for_each body xs tt).
Proof.
  induction xs as [|x rest IH]; intros Hbody; cbn [for_each].
  - apply succeeds_ret.
  - apply succeeds_bind; [apply Hbody; now left|].
    intros []. apply IH. intros y Hy. apply Hbody. now right.
Qed.

Lemma succeeds_inputs u : renderable u = true -> succeeds (write_inputs u).
Proof.
  unfold renderable, write_inputs. intros Hu.
  destruct (truthy (inputs (found u))) eqn:Et; [|apply succeeds_ret].
  destruct (inputs (found u)); try (rewrite Et in Hu; discriminate Hu).
  apply succeeds_bind; [apply succeeds_write|]. intros _.
  apply succeeds_bind; [intros w; cbn; eauto|]. intros parameters.
  apply succeeds_for_each. intros entry _. apply succeeds_write.
Qed.

Lemma succeeds_instance i u :
  renderable u = true -> succeeds (write_instance tt (i, u)).
Proof.
  intros Hu. unfold write_instance.
  repeat (apply succeeds_bind; [apply succeeds_write | intros _]).
  apply succeeds_bind; [now apply succeeds_inputs | intros _; apply succeeds_write].
Qed.

Lemma succeeds_repository repo instances :
  Forall (fun u => renderable u = true) instances ->
  succeeds (write_repository tt (repo, instances)).
Proof.
  intros Hall. unfold write_repository.
  repeat (apply succeeds_bind; [apply succeeds_write | intros _]).
  apply succeeds_bind; [|intros _; apply succeeds_write].
  apply succeeds_for_each. intros [i u] Hin. apply succeeds_instance.
  apply enumerate_from_nth in Hin. destruct Hin as [_ Hin].
  rewrite Forall_forall in Hall. eapply Hall, nth_error_In, Hin.
Qed.

(** The writer returns as soon as every entry of the aggregate is
    renderable. *)
Lemma write_report_returns args st w :
  Forall (fun entry => Forall (fun u => renderable u = true) (snd entry))
         (usage_by_repo st) ->
  result (write_report args st w) = inr tt.
Proof.
  intros Hall. unfold write_report, with_open. cbn [result].
  match goal with
  | |- result (?m w) = _ => assert (succeeds m) as Hs
  end.
  { apply succeeds_bind.
    - unfold write_header.
      repeat (apply succeeds_bind; [apply succeeds_write | intros _]).
      apply succeeds_write.
    - intros _. destruct (0 <? length (usage_by_repo st))%nat;
        [|apply succeeds_write].
      repeat (apply succeeds_bind; [apply succeeds_write | intros _]).
      apply succeeds_for_each. intros [repo instances] Hin.
      apply succeeds_repository. rewrite Forall_forall in Hall.
      apply (Hall (repo, instances)).
      eapply Permutation_in; [|exact Hin].
      apply Permutation_sym, sorted_permutation. }
  destruct (Hs w) as [[] Hw]. exact Hw.
Qed.

End Returns.

(** ** Claims about failures, throttling and rate limits *)

(** C2, as amended: for every run with a valid credential, a search response
    with an HTTP error status and a search response that signals the rate
    limit degrade to an empty candidate list with a diagnostic; every
    exception of the fetch of a candidate file is caught, reported in one
    diagnostic line and leaves the aggregate as it was; the analyzer never
    raises; the scan loop processes every candidate and returns.  An
    exception leaves the search call only when it is not an HTTP status
    error (the request fails, the body does not decode, the reset header is
    not a number), and it then ends the process; once the search has
    returned, the process ends with a non-zero status only when the report
    writer raises, which it does not when the inputs of every entry are a
    mapping or a false value. *)
Theorem failures_contained (P : Platform) (args : arguments) (w : world) :
  no_token (token args) = false ->
  let credential := credential_of args in
  let url := search_url (org args) (action args) (broad_search args) in
  let headers := request_headers credential in
  let sent := [searching_line (org args); EvGet url headers] in
  let searched := search_for_action (org args) (action args) credential
                    (broad_search args) w in
  (forall r,
     fst (requests_get url headers w) = inr r ->
     error_status r = true ->
     result searched = inr []
     /\ trace searched
        = (sent ++ [ EvPrint ("Error searching for actions: "
                                ++ str_of_exn (HTTPError r));
                     EvPrint ("Response: " ++ text r) ])%list)
  /\ (forall r search_results reset,
        fst (requests_get url headers w) = inr r ->
        error_status r = false ->
        json r = inr search_results ->
        rate_limited search_results = true ->
        reset_time r = inr reset ->
        result searched = inr []
        /\ trace searched
           = (sent ++ [ EvPrint ("Rate limit exceeded. Try again in "
                                   ++ str_of_Z (Z.max 0 (reset - time_time
                                        (snd (requests_get url headers w))))
                                   ++ " seconds.") ])%list)
  /\ (forall total_files st item w' e,
        result (get_file_content (item_url item) credential w') = inl e ->
        process_item args credential total_files st item w'
        = mkRun (inr (mkScan (usage_by_repo st) (total_usages st)
                             (files_processed st + 1)))
                (final (get_file_content (item_url item) credential w'))
                [ progress_line total_files (files_processed st + 1) item;
                  EvGet (item_url item) headers;
                  processing_error item e ])
  /\ (forall content info w',
        exists l, result (analyze_workflow_content content (action args) info w')
                  = inr l)
  /\ (forall items w',
        exists st, result (scan args credential items w') = inr st
                   /\ files_processed st = length items)
  /\ (forall e,
        result searched = inl e ->
        (exists cause, e = LibraryError cause) /\ result (main args w) = inl e)
  /\ (forall items,
        result searched = inr items ->
        let scanned := scan args credential items (final searched) in
        exists st,
          result scanned = inr st
          /\ (exit_status (result (main args w)) <> 0%Z ->
              exists e, result (write_report args st (final scanned)) = inl e)
          /\ (Forall (fun entry => Forall (fun u => renderable u = true) (snd entry))
                     (usage_by_repo st) ->
              exit_status (result (main args w)) = 0%Z)).
Proof.
  intros Htoken credential url headers sent searched.
  split; [|split; [|split; [|split; [|split; [|split]]]]].
  - intros r Hr Herr. subst searched. rewrite search_run. cbn zeta.
    fold url headers. rewrite Hr, Herr. now split.
  - intros r search_results reset Hr Herr Hjson Hrate Hreset.
    subst searched. rewrite search_run. cbn zeta.
    fold url headers. rewrite Hr, Herr, Hjson, Hrate, Hreset.
    split; reflexivity.
  - intros total_files st item w' e He.
    rewrite process_item_run. unfold found_instances, world_after, item_trace.
    destruct (get_file_content_run (item_url item) credential w') as [_ [Ht _]].
    cbn zeta in Ht. rewrite He, Ht. reflexivity.
  - intros content info w'. apply analyze_never_raises.
  - intros items w'. eexists. split; [now rewrite scan_run|].
    now rewrite absorb_all_files_processed, scan_log_length.
  - intros e Es. split; [exact (search_raises _ _ _ _ _ _ Es)|].
    rewrite (main_result args w Htoken). cbn zeta.
    fold credential searched. now rewrite Es.
  - intros items Es. cbn zeta.
    pose proof (main_result args w Htoken) as Hmain. cbn zeta in Hmain.
    fold credential searched in Hmain. rewrite Es in Hmain.
    rewrite scan_run in *. cbn [result final] in *.
    eexists. split; [reflexivity|]. split.
    + intros Hexit. rewrite Hmain in Hexit.
      match type of Hexit with
      | context [write_report args ?st ?w'] =>
          destruct (result (write_report args st w')) as [e|u] eqn:Ew;
          [exists e; reflexivity | exfalso; apply Hexit; reflexivity]
      end.
    + intros Hall. rewrite Hmain, (write_report_returns _ _ _ Hall). reflexivity.
Qed.

(** A run in which the first of two candidates answers 404: the iteration
    reports the error and the loop goes on to the second candidate. *)
Lemma failures_contained_witness :
  no_token (token Service.args) = false
  /\ (exists st,
        result (@scan Service.first_file_missing Service.args Service.token
                  [Service.first_item; Service.second_item] Fixture.initial) = inr st
        /\ files_processed st = 2)
  /\ @process_item Service.first_file_missing Service.args Service.token 2
       (mkScan [] 0 0) Service.first_item Fixture.initial
     = @mkRun Service.first_file_missing _
         (inr (mkScan [] 0 1)) (1, 0)
         [ EvPrint "[1/2] Analyzing acme/zeta/.github/workflows/ci.yml...";
           EvGet "https://api.test/zeta/ci" (request_headers Service.token);
           EvPrint "Error processing .github/workflows/ci.yml: 404 Error" ].
Proof.
  split; [reflexivity|].
  pose proof (failures_contained Service.first_file_missing Service.args
                Fixture.initial eq_refl) as H.
  cbn zeta in H. destruct H as [_ [_ [Hfile [_ [Hscan _]]]]].
  split.
  - exact (Hscan [Service.first_item; Service.second_item] Fixture.initial).
  - exact (Hfile 2 (mkScan [] 0 0) Service.first_item Fixture.initial
                 (HTTPError Service.not_found) eq_refl).
Defined.

(** C2 fails as stated: with a valid credential, a search request that
    cannot reach the service raises a connection error, which no handler
    catches; the process ends with status 1. *)
Lemma connection_failure_aborts :
  no_token (token Service.args) = false
  /\ result (@main Fixture.offline Service.args Fixture.initial)
     = inl (LibraryError Fixture.connection_error)
  /\ exit_status (result (@main Fixture.offline Service.args Fixture.initial)) = 1%Z.
Proof. repeat split. Qed.

(** C3, on the code: when the fetch of a candidate file raises, the
    iteration prints the progress line, sends the request, reports the error
    and ends; no pause is taken before the next candidate.  The claim asks
    for the pause regardless of the outcome. *)
Theorem failed_fetch_skips_pause
    (P : Platform) (args : arguments) (credential : string) (total_files : nat)
    (st : scan_state) (item : candidate) (w : world) (e : exn) :
  result (get_file_content (item_url item) credential w) = inl e ->
  trace (process_item args credential total_files st item w)
  = [ progress_line total_files (files_processed st + 1) item;
      EvGet (item_url item) (request_headers credential);
      processing_error item e ]
  /\ (forall milliseconds,
        ~ In (EvSleep milliseconds)
             (trace (process_item args credential total_files st item w)))
  /\ final (process_item args credential total_files st item w)
     = snd (requests_get (item_url item) (request_headers credential) w).
Proof.
  intros He. rewrite process_item_run. cbn [trace final].
  unfold item_trace, world_after.
  destruct (get_file_content_run (item_url item) credential w) as [_ [Ht Hf]].
  cbn zeta in Ht, Hf. rewrite He, Ht, Hf.
  split; [reflexivity | split; [|reflexivity]].
  intros milliseconds [H|[H|[H|[]]]]; discriminate H.
Qed.

(** The failing input: a candidate whose content URL answers 404. *)
Lemma failed_fetch_skips_pause_witness :
  result (@get_file_content Service.first_file_missing
            (item_url Service.first_item) Service.token Fixture.initial)
  = inl (HTTPError Service.not_found)
  /\ forall milliseconds,
       ~ In (EvSleep milliseconds)
            (trace (@process_item Service.first_file_missing Service.args
                      Service.token 2 (mkScan [] 0 0) Service.first_item
                      Fixture.initial)).
Proof.
  split; [reflexivity|].
  apply (failed_fetch_skips_pause Service.first_file_missing Service.args
           Service.token 2 (mkScan [] 0 0) Service.first_item Fixture.initial
           (HTTPError Service.not_found) eq_refl).
Defined.

(** When the fetch returns, the iteration ends with the pause. *)
Lemma fetched_file_pauses
    (P : Platform) (args : arguments) (credential : string) (total_files : nat)
    (st : scan_state) (item : candidate) (w : world) (content : string) :
  result (get_file_content (item_url item) credential w) = inr content ->
  exists before,
    trace (process_item args credential total_files st item w)
    = (before ++ [EvSleep throttle_ms])%list.
Proof.
  intros Hc. rewrite process_item_run. cbn [trace]. unfold item_trace. rewrite Hc.
  cbn zeta.
  destruct (result (analyze_workflow_content content (action args)
                      (item_info item) _)) as [e|[|i l]];
    eexists; rewrite !app_comm_cons, ?app_assoc.
  - reflexivity.
  - reflexivity.
  - change [found_line (action args) (length (i :: l)); EvSleep throttle_ms]
      with ([found_line (action args) (length (i :: l))] ++ [EvSleep throttle_ms])%list.
    rewrite app_assoc. reflexivity.
Qed.

(** The scan of two candidates of which the first cannot be fetched: the
    second request follows the error report at once. *)
Example scan_after_failed_fetch :
  trace (@scan Service.first_file_missing Service.args Service.token
           [Service.first_item; Service.second_item] Fixture.initial)
  = [ EvPrint "[1/2] Analyzing acme/zeta/.github/workflows/ci.yml...";
      EvGet "https://api.test/zeta/ci" (request_headers Service.token);
      EvPrint "Error processing .github/workflows/ci.yml: 404 Error";
      EvPrint "[2/2] Analyzing acme/alpha/.github/workflows/build.yml...";
      EvGet "https://api.test/alpha/build" (request_headers Service.token);
      EvSafeLoad Fixture.sample_text;
      EvPrint "  Found 3 instances of a/b";
      EvSleep 500 ].
Proof. reflexivity. Qed.

(** C4, on the code: a search response that signals the rate limit and
    carries status 403 is handled as an HTTP error: the status and the body
    are reported, the list is empty, and the wait time is neither computed
    nor reported, although the body names the rate limit and the reset
    header is a number. *)
Theorem rate_limit_with_error_status :
  rate_limited Service.rate_limit_body = true
  /\ @reset_time (Service.rate_limiting 403) (Service.rate_limit_response 403)
     = inr 1700000060%Z
  /\ @search_for_action (Service.rate_limiting 403) "acme" "a/b" Service.token false
       Fixture.initial
     = @mkRun (Service.rate_limiting 403) _ (inr []) (1, 0)
         [ EvPrint "Searching for workflow files in acme organization...";
           EvGet "https://api.github.com/search/code?q=org:acme path:.github/workflows/ a/b&per_page=100"
                 (request_headers Service.token);
           EvPrint "Error searching for actions: 403 Error";
           EvPrint ("Response: " ++ Service.rate_limit_text) ]
  /\ forall seconds,
       ~ In (EvPrint ("Rate limit exceeded. Try again in " ++ seconds ++ " seconds."))
            (trace (@search_for_action (Service.rate_limiting 403) "acme" "a/b"
                      Service.token false Fixture.initial)).
Proof.
  split; [reflexivity | split; [reflexivity | split; [reflexivity|]]].
  intros seconds [H|[H|[H|[H|[]]]]]; discriminate H.
Qed.

(** The same body under status 200 reaches the rate-limit branch. *)
Example rate_limit_with_success_status :
  @search_for_action (Service.rate_limiting 200) "acme" "a/b" Service.token false
    Fixture.initial
  = @mkRun (Service.rate_limiting 200) _ (inr []) (1, 0)
      [ EvPrint "Searching for workflow files in acme organization...";
        EvGet "https://api.github.com/search/code?q=org:acme path:.github/workflows/ a/b&per_page=100"
              (request_headers Service.token);
        EvPrint "Rate limit exceeded. Try again in 60 seconds." ].
Proof. reflexivity. Qed.

(** ** Claims about the report *)

(** C7: the scan loop returns an aggregate whose pairs, once sorted, are in
    strictly increasing lexicographic order of the repository name, whatever
    the order of discovery; the entries of each repository are the ones
    discovered for it, in the order of discovery, and every repository with a
    discovered entry is present; the report writer returns when the inputs
    of every entry are a mapping or a false value; and whenever it returns,
    the file holds the header followed, when there is no repository, by the
    single line saying that no instance was found, and otherwise by the
    detailed section: one block per repository in sorted order, the entries
    of a block in the order of the list. *)
Theorem report_order
    (P : Platform) (args : arguments) (credential : string)
    (items : list candidate) (w0 w : world) :
  exists st,
    result (scan args credential items w0) = inr st
    /\ let log := scan_log args credential items w0 in
       let groups := sorted (usage_by_repo st) in
       Permutation (usage_by_repo st) groups
       /\ StronglySorted before groups
       /\ (forall repo us, In (repo, us) groups -> us = discovered repo log)
       /\ (forall repo, discovered repo log <> [] ->
             In (repo, discovered repo log) groups)
       /\ (Forall (fun entry => Forall (fun u => renderable u = true) (snd entry))
                  groups ->
           result (write_report args st w) = inr tt)
       /\ (result (write_report args st w) = inr tt ->
           trace (write_report args st w)
           = (EvOpen (output args)
                :: map EvWrite
                     (app (header_chunks args (length groups) (total_usages st))
                          match groups with
                          | [] => [no_instances_line]
                          | _ :: _ =>
                              app detail_heading
                                  (flat_map repository_chunks groups)
                          end)
                ++ [EvClose])%list).
Proof.
  eexists. split; [now rewrite scan_run|]. cbn zeta.
  set (log := scan_log args credential items w0).
  set (st := absorb_all log (mkScan [] 0 0)).
  assert (consistent st) as [Hnd _].
  { apply absorb_all_consistent. split; [constructor | reflexivity]. }
  assert (forall repo, usages_of repo (usage_by_repo st) = discovered repo log) as Hd.
  { intros repo. unfold st. now rewrite usages_of_absorb_all. }
  split; [apply sorted_permutation|].
  split; [now apply sorted_before|].
  split; [|split; [|split]].
  - intros repo us Hin. rewrite <- Hd. symmetry. apply usages_of_entry; [exact Hnd|].
    eapply Permutation_in; [|exact Hin]. apply Permutation_sym, sorted_permutation.
  - intros repo Hne. rewrite <- Hd in *.
    eapply Permutation_in; [apply sorted_permutation|].
    now apply usages_of_present.
  - intros Hall. apply write_report_returns. rewrite Forall_forall in *.
    intros entry Hin. apply Hall.
    eapply Permutation_in; [apply sorted_permutation | exact Hin].
  - intros Hr. rewrite (write_report_run args st w Hr). cbn [trace].
    rewrite <- (Permutation_length (sorted_permutation (usage_by_repo st))).
    reflexivity.
Qed.

(** A run in which the search finds a file of [acme/zeta] and then a file of
    [acme/alpha]: the report lists [acme/alpha] first. *)
Example report_lists_repositories_sorted :
  map (fun entry => item_repository (fst entry))
      (@scan_log Service.both_files_match Service.args Service.token
         [Service.first_item; Service.second_item] (1, 0))
  = ["acme/zeta"; "acme/alpha"]
  /\ result (@main Service.both_files_match Service.args Fixture.initial) = inr tt
  /\ filter (String.prefix "Repository: ")
            (written (trace (@main Service.both_files_match Service.args
                               Fixture.initial)))
     = [ "Repository: acme/alpha" ++ newline;
         "Repository: acme/zeta" ++ newline ].
Proof. repeat split; vm_compute; reflexivity. Qed.

(** A run whose search is turned down: the report holds the header and the
    line that replaces the detailed section. *)
Example report_without_repository :
  written (trace (@main (Service.rate_limiting 403) Service.args Fixture.initial))
  = [ "Usage Report for 'a/b' in acme" ++ newline;
      "===============================================" ++ newline ++ newline;
      "Repositories using this action: 0" ++ newline;
      "Total usages found: 0" ++ newline ++ newline;
      "No instances of this action were found." ++ newline ].
Proof. vm_compute. reflexivity. Qed.

(** * Further properties of the program *)

(** ** The search executor *)

Lemma requests_app l1 l2 : requests (l1 ++ l2) = (requests l1 ++ requests l2)%list.
Proof. apply filter_app. Qed.

Lemma pauses_app l1 l2 : pauses (l1 ++ l2) = (pauses l1 ++ pauses l2)%list.
Proof. apply filter_app. Qed.

Lemma written_app l1 l2 : written (l1 ++ l2) = (written l1 ++ written l2)%list.
Proof. unfold written. now rewrite flat_map_app. Qed.

Lemma search_observed
    (P : Platform) (org action_name credential : string)
    (broader_search : bool) (w : world) :
  let searched := search_for_action org action_name credential broader_search w in
  let url := search_url org action_name broader_search in
  requests (trace searched) = [EvGet url (request_headers credential)]
  /\ pauses (trace searched) = []
  /\ written (trace searched) = []
  /\ final searched = snd (requests_get url (request_headers credential) w).
Proof.
  cbn zeta. rewrite search_run. cbn zeta.
  destruct (fst (requests_get _ _ w)) as [e|r]; [repeat split|].
  destruct (error_status r); [repeat split|].
  destruct (json r) as [e|search_results]; [repeat split|].
  destruct (rate_limited search_results); [|repeat split].
  destruct (reset_time r); repeat split.
Qed.

(** X1: whatever the service answers, [search_for_action] sends exactly one
    request, to the search URL built from the query and with the headers
    that carry the token; it never asks for a second page and never sends
    the request again.  It pauses nowhere and writes nothing to the report,
    and the world it leaves is the one the request left. *)
Theorem search_sends_one_request
    (P : Platform) (org action_name credential : string)
    (broader_search : bool) (w : world) :
  let searched := search_for_action org action_name credential broader_search w in
  let url := search_url org action_name broader_search in
  requests (trace searched) = [EvGet url (request_headers credential)]
  /\ pauses (trace searched) = []
  /\ written (trace searched) = []
  /\ final searched = snd (requests_get url (request_headers credential) w).
Proof. apply search_observed. Qed.

(** X2: [search_for_action] returns candidates only from an answer whose
    status is no error, whose body decodes, does not signal the rate limit
    and has an [items] member: then the list is that member, verbatim, and
    nothing is printed after the opening line.  An answer of that kind
    without [items] gives the empty list, silently. *)
Theorem search_returns_items
    (P : Platform) (org action_name credential : string)
    (broader_search : bool) (w : world) :
  let searched := search_for_action org action_name credential broader_search w in
  let url := search_url org action_name broader_search in
  let headers := request_headers credential in
  (forall item rest,
     result searched = inr (item :: rest) ->
     exists r search_results,
       fst (requests_get url headers w) = inr r
       /\ error_status r = false
       /\ json r = inr search_results
       /\ rate_limited search_results = false
       /\ json_items search_results = Some (item :: rest))
  /\ (forall r search_results,
        fst (requests_get url headers w) = inr r ->
        error_status r = false ->
        json r = inr search_results ->
        rate_limited search_results = false ->
        searched
        = mkRun (inr (match json_items search_results with
                      | Some found_items => found_items
                      | None => []
                      end))
                (snd (requests_get url headers w))
                [searching_line org; EvGet url headers]).
Proof.
  cbn zeta. rewrite search_run. cbn zeta. split.
  - intros item rest.
    destruct (fst (requests_get _ _ w)) as [e|r]; [discriminate|].
    destruct (error_status r) eqn:Es; [discriminate|].
    destruct (json r) as [e|search_results] eqn:Ej; [discriminate|].
    destruct (rate_limited search_results) eqn:Er.
    + destruct (reset_time r); discriminate.
    + cbn [result]. intros H. exists r, search_results.
      repeat split; try assumption; try reflexivity.
      destruct (json_items search_results); inversion H; reflexivity.
  - intros r search_results Hr Hs Hj Hl. now rewrite Hr, Hs, Hj, Hl.
Qed.

(** X3: in the rate-limit branch the wait time reported is never negative:
    when the reset time is not after the clock the line says 0 seconds; an
    answer without the reset header is read as a reset time of 0, so that,
    the clock being past the epoch, it says 0 seconds too. *)
Theorem rate_limit_wait_not_negative
    (P : Platform) (org action_name credential : string)
    (broader_search : bool) (w : world) (r : response)
    (search_results : json_body) (reset : Z) :
  let url := search_url org action_name broader_search in
  let headers := request_headers credential in
  fst (requests_get url headers w) = inr r ->
  error_status r = false ->
  json r = inr search_results ->
  rate_limited search_results = true ->
  reset_time r = inr reset ->
  (reset <= time_time (snd (requests_get url headers w)))%Z ->
  search_for_action org action_name credential broader_search w
  = mkRun (inr []) (snd (requests_get url headers w))
      [ searching_line org; EvGet url headers;
        EvPrint "Rate limit exceeded. Try again in 0 seconds." ]
  /\ (x_ratelimit_reset r = None -> reset = 0%Z).
Proof.
  cbn zeta. intros Hr Hs Hj Hl Ht Hle. split.
  - rewrite search_run. cbn zeta. rewrite Hr, Hs, Hj, Hl, Ht.
    replace (Z.max 0 (reset - time_time (snd (requests_get _ _ w)))) with 0%Z by lia.
    reflexivity.
  - intros Hnone. unfold reset_time in Ht. rewrite Hnone in Ht. now inversion Ht.
Qed.

(** An answer under status 200 that names the rate limit and has no reset
    header. *)
Lemma rate_limit_wait_not_negative_witness :
  @search_for_action Cases.rate_limiting_without_header "acme" "a/b" Service.token
    false Fixture.initial
  = @mkRun Cases.rate_limiting_without_header _ (inr []) (1, 0)
      [ EvPrint "Searching for workflow files in acme organization...";
        EvGet "https://api.github.com/search/code?q=org:acme path:.github/workflows/ a/b&per_page=100"
              (request_headers Service.token);
        EvPrint "Rate limit exceeded. Try again in 0 seconds." ].
Proof.
  apply (proj1 (rate_limit_wait_not_negative Cases.rate_limiting_without_header
                  "acme" "a/b" Service.token false Fixture.initial
                  Cases.rate_limit_without_header Service.rate_limit_body 0%Z
                  eq_refl eq_refl eq_refl eq_refl eq_refl
                  ltac:(vm_compute; discriminate))).
Defined.

Lemma lower_append a b : lower (a ++ b) = lower a ++ lower b.
Proof. induction a as [|c a IH]; cbn; [reflexivity | now rewrite IH]. Qed.

(** X4: the rate-limit test looks for the words in any letter case and
    anywhere in the message: a message that holds a text whose lower-case
    form is [rate limit] signals the rate limit, and a body without message
    does not. *)
Theorem rate_limit_test_ignores_case
    (before_words words after_words : string) (found_items : option (list candidate))
    (encoding content : option string) :
  lower words = "rate limit" ->
  rate_limited (mkBody (Some (before_words ++ words ++ after_words))
                       found_items encoding content) = true
  /\ rate_limited (mkBody None found_items encoding content) = false.
Proof.
  intros Hwords. split; [|reflexivity].
  unfold rate_limited. cbn [json_message].
  rewrite !lower_append, Hwords. apply contains_substring. eauto.
Qed.

(** GitHub's message, with capitals. *)
Lemma rate_limit_test_ignores_case_witness :
  rate_limited (mkBody (Some "API Rate Limit exceeded") None None None) = true
  /\ rate_limited (mkBody None None None None) = false.
Proof.
  exact (rate_limit_test_ignores_case "API " "Rate Limit" " exceeded" None None None
           eq_refl).
Defined.

(** ** The content fetcher *)

(** X5: [get_file_content] returns a text exactly when the answer has no
    error status, its body decodes and has the members [encoding] and
    [content]; the text is the decoded content when the encoding is
    [base64], and the content as it stands for any other encoding, whatever
    the decoder would make of it. *)
Theorem get_file_content_returns
    (P : Platform) (url credential : string) (w : world) (fetched_text : string) :
  result (get_file_content url credential w) = inr fetched_text
  <-> exists r content_info encoding content,
        fst (requests_get url (request_headers credential) w) = inr r
        /\ error_status r = false
        /\ json r = inr content_info
        /\ json_encoding content_info = Some encoding
        /\ json_content content_info = Some content
        /\ if String.eqb encoding "base64"
           then b64decode_utf8 content = inr fetched_text
           else fetched_text = content.
Proof.
  unfold get_file_content, get, raise_for_status, error_status, lift, member. cbn.
  destruct (requests_get _ _ w) as [[e|r] w1]; cbn.
  { split; [discriminate | intros [r [ci [en [co [H _]]]]]; discriminate]. }
  destruct ((400 <=? status_code r)%Z && (status_code r <? 600)%Z) eqn:Es; cbn.
  { split; [discriminate|]. intros [r' [ci [en [co [H [Hs _]]]]]].
    inversion H; subst. congruence. }
  destruct (json r) as [e|content_info] eqn:Ej; cbn.
  { split; [discriminate|]. intros [r' [ci [en [co [H [_ [Hj _]]]]]]].
    inversion H; subst. congruence. }
  destruct (json_encoding content_info) as [encoding|] eqn:Ee; cbn.
  2:{ split; [discriminate|]. intros [r' [ci [en [co [H [_ [Hj [He _]]]]]]]].
      inversion H; subst. congruence. }
  destruct (json_content content_info) as [content|] eqn:Ec.
  2:{ split.
      - destruct (encoding =? "base64")%string; cbn; discriminate.
      - intros [r' [ci [en [co [H [_ [Hj [He [Hc _]]]]]]]]].
        inversion H; subst. congruence. }
  split.
  - intros H. exists r, content_info, encoding, content.
    repeat split; try assumption.
    destruct (encoding =? "base64")%string; cbn in H.
    + destruct (b64decode_utf8 content); inversion H; reflexivity.
    + inversion H; reflexivity.
  - intros [r' [ci [en [co [H [_ [Hj [He [Hc Hd]]]]]]]]].
    inversion H; subst r'. rewrite Hj in Ej. inversion Ej; subst ci.
    rewrite He in Ee. inversion Ee; subst en.
    rewrite Hc in Ec. inversion Ec; subst co.
    destruct (encoding =? "base64")%string; cbn.
    + now rewrite Hd.
    + now subst.
Qed.

(** X6: [get_file_content] does not swallow failures: an answer with an
    error status raises [HTTPError] with that answer; a body without
    [encoding] raises [KeyError] for that key, even when it has a content;
    a body with an encoding and no [content] raises [KeyError] for
    [content].  In each case one request was sent. *)
Theorem get_file_content_raises
    (P : Platform) (url credential : string) (w : world) (r : response) :
  fst (requests_get url (request_headers credential) w) = inr r ->
  let fetched := get_file_content url credential w in
  trace fetched = [EvGet url (request_headers credential)]
  /\ (error_status r = true -> result fetched = inl (HTTPError r))
  /\ (forall content_info,
        error_status r = false ->
        json r = inr content_info ->
        json_encoding content_info = None ->
        result fetched = inl (KeyError "encoding"))
  /\ (forall content_info encoding,
        error_status r = false ->
        json r = inr content_info ->
        json_encoding content_info = Some encoding ->
        json_content content_info = None ->
        result fetched = inl (KeyError "content")).
Proof.
  intros Hr. cbn zeta.
  destruct (get_file_content_run url credential w) as [_ [Ht _]]. cbn zeta in Ht.
  split; [exact Ht|].
  unfold get_file_content, get, raise_for_status, error_status, lift, member. cbn.
  destruct (requests_get _ _ w) as [[e|r'] w1]; cbn in Hr; [discriminate|].
  inversion Hr; subst r'. cbn. split; [|split].
  - now intros ->.
  - intros content_info Hs Hj He. rewrite Hs. cbn. rewrite Hj. cbn. now rewrite He.
  - intros content_info encoding Hs Hj He Hc. rewrite Hs. cbn. rewrite Hj. cbn.
    rewrite He. cbn. destruct (encoding =? "base64")%string; cbn; now rewrite Hc.
Qed.

(** The candidate whose content URL answers 404. *)
Lemma get_file_content_raises_witness :
  result (@get_file_content Service.first_file_missing
            (item_url Service.first_item) Service.token Fixture.initial)
  = inl (HTTPError Service.not_found).
Proof.
  exact (proj1 (proj2 (get_file_content_raises Service.first_file_missing
                         (item_url Service.first_item) Service.token
                         Fixture.initial Service.not_found eq_refl))
           eq_refl).
Defined.

(** ** The workflow analyzer *)

Lemma contribution_origin action_name job_name k step i :
  In i (contribution action_name job_name (k, step)) ->
  job i = job_name
  /\ field "uses" step = Some (action_ref i)
  /\ py_contains action_name (action_ref i) = inr true
  /\ step_name i = display_name k step
  /\ inputs i = parameters step.
Proof.
  unfold contribution, matching_reference. cbn [fst snd].
  destruct (field "uses" step) as [uses|]; [|intros []].
  destruct (py_contains action_name uses) as [e|[|]] eqn:E;
    [intros [] | | intros []].
  intros [<-|[]]. cbn. auto.
Qed.

Lemma document_instances_origin action_name workflow_data i :
  In i (document_instances action_name workflow_data) ->
  exists entry k step,
    In entry (job_entries workflow_data)
    /\ nth_error (step_sequence (snd entry)) k = Some step
    /\ In i (contribution action_name (fst entry) (k, step)).
Proof.
  unfold document_instances, job_contribution. intros Hi.
  apply in_flat_map in Hi. destruct Hi as [entry [Hentry Hi]].
  apply in_flat_map in Hi. destruct Hi as [[k step] [Hstep Hi]].
  exists entry, k, step. repeat split; try assumption. now apply enumerate_nth.
Qed.

(** What the analyzer returns is what it found, or nothing. *)
Lemma analyze_result content action_name info (P : Platform) (w : world) l :
  result (analyze_workflow_content content action_name info w) = inr l ->
  l = []
  \/ (contains action_name content = true
      /\ exists workflow_data,
           yaml_safe_load content = inr workflow_data
           /\ find_instances action_name workflow_data = inr l
           /\ l = document_instances action_name workflow_data).
Proof.
  rewrite analyze_run.
  destruct (contains action_name content); [|intros H; inversion H; auto].
  destruct (yaml_safe_load content) as [e|workflow_data];
    [intros H; inversion H; auto|].
  destruct (find_instances action_name workflow_data) as [e|l'] eqn:E;
    cbn [result]; intros H; inversion H; subst; [auto|].
  right. split; [reflexivity|]. exists workflow_data.
  repeat split; try assumption. now apply find_instances_returns.
Qed.

(** X7: whatever the document, every instance the analyzer returns comes
    from a step of a job of the parsed document: the text contains the
    target, the instance carries the key of the job, the [uses] value of the
    step (for which the membership test of the target succeeds), the name of
    the step or ["Step <k+1>"] for its position [k], and the [with] value of
    the step or an empty mapping. *)
Theorem returned_instances_come_from_steps
    (P : Platform) (content action_name : string) (info : file_info)
    (w : world) (l : list instance) (i : instance) :
  result (analyze_workflow_content content action_name info w) = inr l ->
  In i l ->
  contains action_name content = true
  /\ exists workflow_data entry k step,
       yaml_safe_load content = inr workflow_data
       /\ In entry (job_entries workflow_data)
       /\ nth_error (step_sequence (snd entry)) k = Some step
       /\ job i = fst entry
       /\ field "uses" step = Some (action_ref i)
       /\ py_contains action_name (action_ref i) = inr true
       /\ step_name i = match field "name" step with
                        | Some name => name
                        | None => VStr ("Step " ++ str_of_nat (k + 1))
                        end
       /\ inputs i = match field "with" step with
                     | Some given => given
                     | None => VDict []
                     end.
Proof.
  intros Hr Hi. apply analyze_result in Hr.
  destruct Hr as [->|[Hin [workflow_data [Hload [_ ->]]]]]; [destruct Hi|].
  split; [exact Hin|].
  apply document_instances_origin in Hi. destruct Hi as [entry [k [step [He [Hs Hi]]]]].
  apply contribution_origin in Hi. destruct Hi as [Hj [Hu [Hc [Hn Hw]]]].
  exists workflow_data, entry, k, step. repeat split; assumption.
Qed.

(** The second instance found in the sample: the step at position 1 of the
    job [build], which has no name. *)
Lemma returned_instances_come_from_steps_witness :
  contains "a/b" Fixture.sample_text = true
  /\ exists workflow_data entry k step,
       @yaml_safe_load Fixture.offline Fixture.sample_text = inr workflow_data
       /\ In entry (job_entries workflow_data)
       /\ nth_error (step_sequence (snd entry)) k = Some step
       /\ VStr "build" = fst entry
       /\ field "uses" step = Some (VStr "a/b-suffix@v1")
       /\ py_contains "a/b" (VStr "a/b-suffix@v1") = inr true
       /\ VStr "Step 2" = match field "name" step with
                          | Some name => name
                          | None => VStr ("Step " ++ str_of_nat (k + 1))
                          end
       /\ VDict [] = match field "with" step with
                     | Some given => given
                     | None => VDict []
                     end.
Proof.
  exact (returned_instances_come_from_steps Fixture.offline Fixture.sample_text
           "a/b" Fixture.info Fixture.initial Fixture.sample_instances
           (mkInstance (VStr "build") (VStr "Step 2") (VStr "a/b-suffix@v1") (VDict []))
           eq_refl (or_intror (or_introl eq_refl))).
Defined.

Lemma contribution_length action_name job_name entry :
  length (contribution action_name job_name entry) <= 1.
Proof.
  unfold contribution. destruct (matching_reference action_name (snd entry)); cbn; lia.
Qed.

Lemma flat_map_length_bound {A B : Type} (f : A -> list B) (xs : list A) :
  (forall x, length (f x) <= 1) -> length (flat_map f xs) <= length xs.
Proof.
  intros Hf. induction xs as [|x rest IH]; cbn; [lia|].
  rewrite length_app. specialize (Hf x). lia.
Qed.

Lemma enumerate_from_length {A : Type} (xs : list A) : forall start,
  length (enumerate_from start xs) = length xs.
Proof. induction xs; intros start; cbn; auto. Qed.

Lemma job_contribution_length action_name entry :
  length (job_contribution action_name entry) <= length (step_sequence (snd entry)).
Proof.
  unfold job_contribution.
  pose proof (flat_map_length_bound (contribution action_name (fst entry))
                (enumerate (step_sequence (snd entry)))
                (contribution_length action_name (fst entry))) as Hb.
  unfold enumerate in Hb at 2. now rewrite enumerate_from_length in Hb.
Qed.

Lemma document_instances_length action_name workflow_data :
  length (document_instances action_name workflow_data) <= step_count workflow_data.
Proof.
  unfold document_instances, step_count.
  induction (job_entries workflow_data) as [|entry rest IH]; [cbn; lia|].
  cbn [flat_map map]. rewrite length_app.
  change (list_sum (?x :: ?l)) with (x + list_sum l).
  pose proof (job_contribution_length action_name entry). lia.
Qed.

(** X8: the analyzer returns at most one instance per step: the length of
    the list is at most the number of steps of the jobs of the parsed
    document, and it is 0 when the text does not parse. *)
Theorem instances_bounded_by_steps
    (P : Platform) (content action_name : string) (info : file_info)
    (w : world) (l : list instance) :
  result (analyze_workflow_content content action_name info w) = inr l ->
  (forall workflow_data,
     yaml_safe_load content = inr workflow_data ->
     length l <= step_count workflow_data)
  /\ (forall e, yaml_safe_load content = inl e -> l = []).
Proof.
  intros Hr. split.
  - intros workflow_data Hload. apply analyze_result in Hr.
    destruct Hr as [->|[_ [workflow_data' [Hload' [_ ->]]]]]; [cbn; lia|].
    rewrite Hload in Hload'. inversion Hload'; subst.
    apply document_instances_length.
  - intros e Hload. apply analyze_result in Hr.
    destruct Hr as [->|[_ [workflow_data [Hload' _]]]]; [reflexivity|].
    rewrite Hload in Hload'. discriminate.
Qed.

(** The sample has five steps, three of which match. *)
Lemma instances_bounded_by_steps_witness :
  length Fixture.sample_instances <= step_count Fixture.sample_document.
Proof.
  exact (proj1 (instances_bounded_by_steps Fixture.offline Fixture.sample_text "a/b"
                  Fixture.info Fixture.initial Fixture.sample_instances eq_refl)
           Fixture.sample_document eq_refl).
Defined.


(** X10: a parsed document that is a mapping without a [jobs] key, or with
    an empty job collection, gives an empty list and no diagnostic; a [jobs]
    key whose value is not a mapping (a null value, a list, a string) makes
    [.items()] raise [AttributeError]: the analyzer reports it and returns
    an empty list. *)
Theorem job_collection_edge_cases
    (P : Platform) (content action_name : string) (info : file_info) (w : world)
    (entries : list (value * value)) :
  contains action_name content = true ->
  yaml_safe_load content = inr (VDict entries) ->
  let analyzed := analyze_workflow_content content action_name info w in
  (lookup "jobs" entries = None \/ lookup "jobs" entries = Some (VDict []) ->
   analyzed = mkRun (inr []) w [EvSafeLoad content])
  /\ (forall jobs,
        lookup "jobs" entries = Some jobs ->
        (forall job_map, jobs <> VDict job_map) ->
        analyzed
        = mkRun (inr []) w [EvSafeLoad content; parse_diagnostic info AttributeError]).
Proof.
  intros Hin Hload. cbn zeta. rewrite analyze_run, Hin, Hload.
  unfold find_instances. split.
  - intros [Hnone|Hempty].
    + destruct entries as [|kv rest]; [reflexivity|].
      cbn [truthy py_contains]. cbn -[lookup]. now rewrite Hnone.
    + destruct entries as [|kv rest]; [discriminate|].
      cbn [truthy py_contains py_getitem]. cbn -[lookup]. now rewrite Hempty.
  - intros jobs Hjobs Hnot.
    destruct entries as [|kv rest]; [discriminate|].
    cbn [truthy py_contains py_getitem]. cbn -[lookup]. rewrite Hjobs. cbn -[lookup].
    destruct jobs as [| b | z | f | s | els | job_map]; try reflexivity.
    exfalso. now apply (Hnot job_map).
Qed.

(** A workflow file with a name and a trigger and no job; and one whose
    [jobs] key has no value. *)
Lemma job_collection_edge_cases_witness :
  @analyze_workflow_content Cases.offline Cases.no_jobs_text "a/b" Fixture.info
    Fixture.initial
  = @mkRun Cases.offline _ (inr []) Fixture.initial [EvSafeLoad Cases.no_jobs_text]
  /\ @analyze_workflow_content Cases.offline Cases.null_jobs_text "a/b" Fixture.info
       Fixture.initial
     = @mkRun Cases.offline _ (inr []) Fixture.initial
         [ EvSafeLoad Cases.null_jobs_text;
           EvPrint "Error parsing workflow .github/workflows/ci.yml: AttributeError" ].
Proof.
  split.
  - apply (proj1 (job_collection_edge_cases Cases.offline Cases.no_jobs_text "a/b"
                    Fixture.info Fixture.initial _ eq_refl eq_refl)).
    left. reflexivity.
  - apply (proj2 (job_collection_edge_cases Cases.offline Cases.null_jobs_text "a/b"
                    Fixture.info Fixture.initial _ eq_refl eq_refl) VNone eq_refl).
    intros job_map H. discriminate H.
Defined.

(** ** The scan loop and [main] *)

Section Traces.

Context {P : Platform}.

Lemma analyze_observed content action_name info w :
  let analyzed := analyze_workflow_content content action_name info w in
  requests (trace analyzed) = []
  /\ pauses (trace analyzed) = []
  /\ written (trace analyzed) = [].
Proof.
  cbn zeta. rewrite analyze_run.
  destruct (contains action_name content); [|repeat split].
  destruct (yaml_safe_load content) as [e|workflow_data]; [repeat split|].
  destruct (find_instances action_name workflow_data); repeat split.
Qed.

(** One iteration: one request, nothing written, a pause exactly when the
    fetch returned. *)
Lemma item_observed args credential total_files n item w :
  let events := item_trace args credential total_files n item w in
  requests events = [EvGet (item_url item) (request_headers credential)]
  /\ written events = []
  /\ pauses events
     = match result (get_file_content (item_url item) credential w) with
       | inr _ => [EvSleep throttle_ms]
       | inl _ => []
       end.
Proof.
  cbn zeta. unfold item_trace.
  destruct (get_file_content_run (item_url item) credential w) as [_ [Ht _]].
  cbn zeta in Ht. rewrite Ht.
  destruct (result (get_file_content (item_url item) credential w)) as [e|content];
    [repeat split|].
  cbn zeta.
  destruct (analyze_observed content (action args) (item_info item)
              (final (get_file_content (item_url item) credential w)))
    as [Hr [Hp Hw]]. cbn zeta in Hr, Hp, Hw.
  unfold progress_line.
  change (?e :: ?l ++ ?m ++ ?k)%list with ([e] ++ l ++ m ++ k)%list.
  rewrite !requests_app, !pauses_app, !written_app, Hr, Hp, Hw.
  destruct (result (analyze_workflow_content _ _ _ _)) as [e|[|i l]];
    repeat split.
Qed.

Lemma scan_observed args credential total_files items : forall n w,
  let events := scan_trace args credential total_files n items w in
  requests events
  = map (fun item => EvGet (item_url item) (request_headers credential)) items
  /\ written events = []
  /\ pauses events
     = map (fun _ => EvSleep throttle_ms)
           (filter (fun returned => returned) (fetch_outcomes credential items w)).
Proof.
  induction items as [|item rest IH]; intros n w; cbn zeta.
  - repeat split.
  - cbn [scan_trace fetch_outcomes map].
    destruct (item_observed args credential total_files (n + 1) item w)
      as [Hr [Hw Hp]]. cbn zeta in Hr, Hw, Hp.
    destruct (IH (n + 1) (world_after credential item w)) as [Hr' [Hw' Hp']].
    cbn zeta in Hr', Hw', Hp'.
    rewrite requests_app, written_app, pauses_app, Hr, Hw, Hp, Hr', Hw', Hp'.
    repeat split.
    destruct (result (get_file_content (item_url item) credential w)); reflexivity.
Qed.

End Traces.

Lemma scan_requests_each_candidate_once_helper
    (P : Platform) (args : arguments) (credential : string)
    (items : list candidate) (w : world) :
  requests (trace (scan args credential items w))
  = map (fun item => EvGet (item_url item) (request_headers credential)) items
  /\ written (trace (scan args credential items w)) = [].
Proof.
  rewrite scan_run. cbn [trace].
  destruct (scan_observed args credential (length items) items 0 w) as [Hr [Hw _]].
  now split.
Qed.

(** X11: the scan loop sends exactly one request per candidate, in the order
    of the search results, to the candidate's content URL and with the
    headers that carry the token: no candidate is skipped and none is
    fetched twice.  The loop writes nothing to the report file. *)
Theorem scan_requests_each_candidate_once
    (P : Platform) (args : arguments) (credential : string)
    (items : list candidate) (w : world) :
  requests (trace (scan args credential items w))
  = map (fun item => EvGet (item_url item) (request_headers credential)) items
  /\ written (trace (scan args credential items w)) = [].
Proof. apply scan_requests_each_candidate_once_helper. Qed.


(** ** The aggregate, continued *)

Lemma append_usage_nonempty key u d :
  Forall (fun entry => snd entry <> [] \/ fst entry = key) d ->
  Forall (fun entry => snd entry <> []) (append_usage key u d).
Proof.
  induction d as [|[k us] rest IH]; intros Hall; [constructor|].
  inversion Hall as [|? ? Hhead Hrest]; subst.
  rewrite append_usage_cons. constructor; [|now apply IH].
  destruct (String.eqb_spec key k) as [->|Hne]; cbn [snd fst] in *.
  - intros H. now apply app_eq_nil in H as [_ H].
  - destruct Hhead as [H|H]; [exact H | congruence].
Qed.

Lemma fold_append_nonempty key file_name file_path instances : forall d,
  Forall (fun entry => snd entry <> []) d ->
  Forall (fun entry => snd entry <> [])
         (fold_left (fun d instance =>
                       append_usage key (mkUsage file_name file_path instance) d)
                    instances d).
Proof.
  induction instances as [|i rest IH]; intros d Hall; [exact Hall|].
  cbn [fold_left]. apply IH. apply append_usage_nonempty.
  eapply Forall_impl; [|exact Hall]. intros entry H. now left.
Qed.

Lemma record_usages_nonempty repo_name file_name file_path i rest d :
  Forall (fun entry => snd entry <> []) d ->
  Forall (fun entry => snd entry <> [])
         (record_usages repo_name file_name file_path (i :: rest) d).
Proof.
  intros Hall. unfold record_usages. cbn [fold_left].
  apply fold_append_nonempty, append_usage_nonempty.
  destruct (has_key repo_name d).
  - eapply Forall_impl; [|exact Hall]. intros entry H. now left.
  - apply Forall_app. split.
    + eapply Forall_impl; [|exact Hall]. intros entry H. now left.
    + constructor; [now right | constructor].
Qed.

Lemma absorb_all_nonempty log : forall st,
  Forall (fun entry => snd entry <> []) (usage_by_repo st) ->
  Forall (fun entry => snd entry <> []) (usage_by_repo (absorb_all log st)).
Proof.
  induction log as [|[item instances] rest IH]; intros st Hall; [exact Hall|].
  cbn [absorb_all fold_left fst snd]. apply IH.
  destruct instances as [|i l]; [exact Hall|].
  cbn [absorb usage_by_repo]. now apply record_usages_nonempty.
Qed.

Lemma absorb_all_total log : forall st,
  total_usages (absorb_all log st)
  = total_usages st + list_sum (map (fun entry => length (snd entry)) log).
Proof.
  induction log as [|[item instances] rest IH]; intros st.
  - cbn. lia.
  - cbn [absorb_all fold_left fst snd map].
    change (list_sum (?x :: ?l)) with (x + list_sum l).
    fold (absorb_all rest (absorb item instances st)). rewrite IH.
    destruct instances as [|i l]; cbn [absorb total_usages length]; lia.
Qed.

Section Log.

Context {P : Platform}.

Lemma scan_log_items args credential items : forall w,
  map fst (scan_log args credential items w) = items.
Proof.
  induction items as [|item rest IH]; intros w; cbn; [reflexivity|].
  now rewrite IH.
Qed.

End Log.

Lemma discovered_origin repo log u :
  In u (discovered repo log) ->
  exists item instances instance,
    In (item, instances) log
    /\ In instance instances
    /\ item_repository item = repo
    /\ u = mkUsage (basename (item_path item)) (item_path item) instance.
Proof.
  unfold discovered. intros Hu. apply in_flat_map in Hu.
  destruct Hu as [[item instances] [Hlog Hu]]. cbn [fst snd] in Hu.
  destruct (String.eqb_spec repo (item_repository item)) as [->|Hne]; [|destruct Hu].
  apply in_map_iff in Hu. destruct Hu as [instance [<- Hinst]].
  exists item, instances, instance. auto.
Qed.

Lemma prefix_slash c rest : String.prefix "/" (String c rest) = Ascii.eqb c "/".
Proof.
  change (String.prefix "/" (String c rest))
    with (if ascii_dec "/" c then String.prefix "" rest else false).
  destruct (ascii_dec "/" c) as [<-|Hne]; [now destruct rest|].
  symmetry. apply Ascii.eqb_neq. congruence.
Qed.

Lemma contains_slash_cons c rest :
  contains "/" (String c rest) = Ascii.eqb c "/" || contains "/" rest.
Proof.
  cbn [contains]. rewrite prefix_slash. now destruct (Ascii.eqb c "/").
Qed.

(** [os.path.basename] leaves no slash. *)
Lemma basename_no_slash p : contains "/" (basename p) = false.
Proof.
  induction p as [|c rest IH]; [reflexivity|]. cbn [basename].
  destruct (contains "/" rest) eqn:E; [exact IH|].
  destruct (Ascii.eqb c "/") eqn:Ec; [exact E|].
  now rewrite contains_slash_cons, Ec, E.
Qed.

(** The path ends with its basename, after a slash or at once. *)
Lemma basename_suffix p :
  exists directory, p = directory ++ basename p
                    /\ (directory = "" \/ exists parent, directory = parent ++ "/").
Proof.
  induction p as [|c rest IH]; [exists ""; auto|]. cbn [basename].
  destruct (contains "/" rest) eqn:E.
  - destruct IH as [directory [Hd Hs]]. exists (String c directory). split.
    + cbn. now rewrite <- Hd.
    + right. destruct Hs as [->|[parent ->]].
      * exfalso. cbn in Hd. rewrite Hd, basename_no_slash in E. discriminate.
      * now exists (String c parent).
  - destruct (Ascii.eqb_spec c "/") as [->|Hne].
    + exists "/". split; [reflexivity|]. right. now exists "".
    + exists "". auto.
Qed.

(** X13: when the scan loop has returned, the keys of the aggregate are
    distinct, the list of every repository holds at least one entry, and a
    repository is a key exactly when an instance was discovered in one of
    its files; so the repository count of the report counts the
    repositories with a usage, and it is at most the number of candidates. *)
Theorem aggregate_holds_repositories_with_usage
    (P : Platform) (args : arguments) (credential : string)
    (items : list candidate) (w : world) :
  exists st,
    result (scan args credential items w) = inr st
    /\ NoDup (map fst (usage_by_repo st))
    /\ Forall (fun entry => snd entry <> []) (usage_by_repo st)
    /\ (forall repo,
          In repo (map fst (usage_by_repo st))
          <-> discovered repo (scan_log args credential items w) <> [])
    /\ length (usage_by_repo st) <= length items.
Proof.
  eexists. split; [now rewrite scan_run|].
  set (log := scan_log args credential items w).
  set (st := absorb_all log (mkScan [] 0 0)).
  assert (consistent st) as [Hnd _].
  { apply absorb_all_consistent. split; [constructor | reflexivity]. }
  assert (Forall (fun entry => snd entry <> []) (usage_by_repo st)) as Hne.
  { apply absorb_all_nonempty. constructor. }
  assert (forall repo, usages_of repo (usage_by_repo st) = discovered repo log) as Hd.
  { intros repo. unfold st. now rewrite usages_of_absorb_all. }
  assert (forall repo,
            In repo (map fst (usage_by_repo st)) <-> discovered repo log <> [])
    as Hkeys.
  { intros repo. split.
    - intros Hin. apply in_map_iff in Hin. destruct Hin as [[k us] [Hk Hin]].
      cbn in Hk. subst k. rewrite <- Hd, (usages_of_entry _ _ _ Hnd Hin).
      rewrite Forall_forall in Hne. exact (Hne _ Hin).
    - intros Hdisc. rewrite <- Hd in Hdisc. apply usages_of_present in Hdisc.
      apply in_map_iff. now exists (repo, usages_of repo (usage_by_repo st)). }
  split; [exact Hnd|]. split; [exact Hne|]. split; [exact Hkeys|].
  rewrite <- (length_map fst (usage_by_repo st)).
  rewrite <- (length_map item_repository items).
  apply NoDup_incl_length; [exact Hnd|].
  intros repo Hin. apply Hkeys in Hin.
  destruct (discovered repo log) as [|u us] eqn:E; [congruence|].
  assert (In u (discovered repo log)) as Hu by (rewrite E; now left).
  apply discovered_origin in Hu.
  destruct Hu as [item [instances [instance [Hlog [_ [Hrepo _]]]]]].
  apply in_map_iff. exists item. split; [exact Hrepo|].
  unfold log in Hlog. rewrite <- (scan_log_items args credential items w).
  apply in_map_iff. now exists (item, instances).
Qed.

(** X14: every entry stored for a repository comes from a candidate of that
    repository and from an instance found in that candidate: its path is
    the candidate's path and its workflow name is the last component of the
    path, which holds no slash and with which the path ends. *)
Theorem entries_come_from_candidates
    (P : Platform) (args : arguments) (credential : string)
    (items : list candidate) (w : world) :
  exists st,
    result (scan args credential items w) = inr st
    /\ forall repo entries u,
         In (repo, entries) (usage_by_repo st) ->
         In u entries ->
         (exists item instances,
            In item items
            /\ In (item, instances) (scan_log args credential items w)
            /\ In (found u) instances
            /\ item_repository item = repo
            /\ path u = item_path item)
         /\ contains "/" (workflow u) = false
         /\ exists directory,
              path u = directory ++ workflow u
              /\ (directory = "" \/ exists parent, directory = parent ++ "/").
Proof.
  eexists. split; [now rewrite scan_run|].
  set (log := scan_log args credential items w).
  set (st := absorb_all log (mkScan [] 0 0)).
  assert (consistent st) as [Hnd _].
  { apply absorb_all_consistent. split; [constructor | reflexivity]. }
  intros repo entries u Hin Hu.
  assert (In u (discovered repo log)) as Hdisc.
  { replace (discovered repo log) with (usages_of repo (usage_by_repo st)).
    - now rewrite (usages_of_entry _ _ _ Hnd Hin).
    - unfold st. now rewrite usages_of_absorb_all. }
  apply discovered_origin in Hdisc.
  destruct Hdisc as [item [instances [instance [Hlog [Hinst [Hrepo ->]]]]]].
  cbn [workflow path found]. split; [|split].
  - exists item, instances. repeat split; try assumption.
    rewrite <- (scan_log_items args credential items w).
    apply in_map_iff. now exists (item, instances).
  - apply basename_no_slash.
  - apply basename_suffix.
Qed.

(** X15: the total usage count is the sum, over the candidates, of the
    number of instances found in each; a candidate whose fetch raised counts
    for nothing, and every candidate is counted as processed. *)
Theorem total_sums_the_files
    (P : Platform) (args : arguments) (credential : string)
    (items : list candidate) (w : world) :
  exists st,
    result (scan args credential items w) = inr st
    /\ total_usages st
       = list_sum (map (fun entry => length (snd entry))
                       (scan_log args credential items w))
    /\ files_processed st = length items
    /\ forall item w' e,
         result (get_file_content (item_url item) credential w') = inl e ->
         found_instances args credential item w' = [].
Proof.
  eexists. split; [now rewrite scan_run|]. split; [|split].
  - now rewrite absorb_all_total.
  - now rewrite absorb_all_files_processed, scan_log_length.
  - intros item w' e He. unfold found_instances. now rewrite He.
Qed.

(** ** The report writer and the end of [main] *)

Section Writer.

Context {P : Platform}.

Lemma confined_ret {A : Type} allowed (a : A) : confined allowed (ret a).
Proof. intros w. reflexivity. Qed.

Lemma confined_write s : confined is_write (write s).
Proof. intros w. reflexivity. Qed.

Lemma confined_lift {A : Type} allowed (r : res A) : confined allowed (lift r).
Proof. intros w. reflexivity. Qed.

Lemma confined_bind {A B : Type} allowed (m : IO A) (k : A -> IO B) :
  confined allowed m -> (forall a, confined allowed (k a)) ->
  confined allowed (bind m k).
Proof.
  intros Hm Hk w. cbn. specialize (Hm w).
  destruct (result (m w)) as [e|a]; cbn; [exact Hm|].
  rewrite forallb_app, Hm. apply Hk.
Qed.

Lemma confined_for_each {A : Type} allowed (body : unit -> A -> IO unit) xs :
  (forall x, confined allowed (body tt x)) ->
  confined allowed (for_each body xs tt).
Proof.
  intros Hbody. induction xs as [|x rest IH]; cbn [for_each].
  - apply confined_ret.
  - apply confined_bind; [apply Hbody | intros []; exact IH].
Qed.

Lemma confined_inputs u : confined is_write (write_inputs u).
Proof.
  unfold write_inputs. destruct (truthy (inputs (found u))); [|apply confined_ret].
  apply confined_bind; [apply confined_write | intros _].
  apply confined_bind; [apply confined_lift | intros parameters].
  apply confined_for_each. intros entry. apply confined_write.
Qed.

Lemma confined_instance entry : confined is_write (write_instance tt entry).
Proof.
  destruct entry as [i u]. unfold write_instance.
  repeat (apply confined_bind; [apply confined_write | intros _]).
  apply confined_bind; [apply confined_inputs | intros _; apply confined_write].
Qed.

Lemma confined_repository entry : confined is_write (write_repository tt entry).
Proof.
  destruct entry as [repo instances]. unfold write_repository.
  repeat (apply confined_bind; [apply confined_write | intros _]).
  apply confined_bind; [|intros _; apply confined_write].
  apply confined_for_each. apply confined_instance.
Qed.

Lemma writes_only l : forallb is_write l = true -> l = map EvWrite (written l).
Proof.
  unfold written. induction l as [|e rest IH]; [reflexivity|]. cbn [forallb].
  intros H. apply andb_true_iff in H. destruct H as [He Hrest].
  destruct e; try discriminate He. cbn. now rewrite <- IH.
Qed.

(** The events of the report writer: the file is opened, chunks are
    written, the file is closed. *)
Lemma write_report_events args st w :
  exists chunks,
    trace (write_report args st w)
    = (EvOpen (output args) :: map EvWrite chunks ++ [EvClose])%list.
Proof.
  unfold write_report, with_open. cbn [trace].
  match goal with
  | |- context [trace (?m w)] => assert (confined is_write m) as Hc
  end.
  { apply confined_bind.
    - unfold write_header.
      repeat (apply confined_bind; [apply confined_write | intros _]).
      apply confined_write.
    - intros _. destruct (0 <? length (usage_by_repo st))%nat;
        [|apply confined_write].
      repeat (apply confined_bind; [apply confined_write | intros _]).
      apply confined_for_each. apply confined_repository. }
  eexists. rewrite (writes_only _ (Hc w)) at 1. reflexivity.
Qed.

Lemma yields_ret {A : Type} (a : A) : yields (ret a) (inr a).
Proof. intros w. reflexivity. Qed.

Lemma yields_write s : yields (write s) (inr tt).
Proof. intros w. reflexivity. Qed.

Lemma yields_returned {A B : Type} (m : IO A) (k : A -> IO B) a r :
  yields m (inr a) -> yields (k a) r -> yields (bind m k) r.
Proof. intros Hm Hk w. cbn. rewrite (Hm w). cbn. apply Hk. Qed.

Lemma yields_raised {A B : Type} (m : IO A) (k : A -> IO B) e :
  yields m (inl e) -> yields (bind m k) (inl e).
Proof. intros Hm w. cbn. now rewrite (Hm w). Qed.

Lemma yields_for_each {A : Type} (body : unit -> A -> IO unit)
    (fine : A -> bool) (e : exn) xs :
  (forall x, yields (body tt x) (if fine x then inr tt else inl e)) ->
  yields (for_each body xs tt) (if forallb fine xs then inr tt else inl e).
Proof.
  intros Hbody. induction xs as [|x rest IH]; cbn [for_each forallb].
  - apply yields_ret.
  - specialize (Hbody x). destruct (fine x); cbn [andb].
    + eapply yields_returned; [exact Hbody | exact IH].
    + now apply yields_raised.
Qed.

Lemma yields_inputs u :
  yields (write_inputs u) (if renderable u then inr tt else inl AttributeError).
Proof.
  unfold write_inputs, renderable.
  destruct (inputs (found u)) as [| b | z | f | s | els | d] eqn:E;
    destruct (truthy _) eqn:Et; cbn [negb];
    try apply yields_ret;
    try (eapply yields_returned; [apply yields_write|];
         apply yields_raised; intros w; reflexivity).
  eapply yields_returned; [apply yields_write|].
  eapply yields_returned; [intros w; reflexivity|].
  pose proof (yields_for_each
                (fun (_ : unit) (entry : value * value) =>
                   write ("    " ++ str_of_value (fst entry) ++ ": "
                            ++ str_of_value (snd entry) ++ newline))
                (fun _ => true) AttributeError d
                (fun entry => yields_write _)) as H.
  replace (forallb (fun _ : value * value => true) d) with true in H; [exact H|].
  clear. induction d; cbn; auto.
Qed.

Lemma yields_instance i u :
  yields (write_instance tt (i, u))
         (if renderable u then inr tt else inl AttributeError).
Proof.
  unfold write_instance.
  repeat (eapply yields_returned; [apply yields_write|]).
  pose proof (yields_inputs u) as H. destruct (renderable u).
  - eapply yields_returned; [exact H | apply yields_write].
  - now apply yields_raised.
Qed.

Lemma forallb_enumerate {A : Type} (f : A -> bool) (xs : list A) : forall start,
  forallb (fun entry => f (snd entry)) (enumerate_from start xs) = forallb f xs.
Proof. induction xs as [|x rest IH]; intros start; cbn; [auto | now rewrite IH]. Qed.

Lemma yields_repository repo instances :
  yields (write_repository tt (repo, instances))
         (if forallb renderable instances then inr tt else inl AttributeError).
Proof.
  unfold write_repository.
  repeat (eapply yields_returned; [apply yields_write|]).
  pose proof (yields_for_each write_instance (fun entry => renderable (snd entry))
                AttributeError (enumerate_from 1 instances)) as H.
  rewrite forallb_enumerate in H.
  assert (forall x : nat * usage,
             yields (write_instance tt x)
                    (if renderable (snd x) then inr tt else inl AttributeError)) as Hx.
  { intros [i u]. apply yields_instance. }
  specialize (H Hx). destruct (forallb renderable instances).
  - eapply yields_returned; [exact H | apply yields_write].
  - now apply yields_raised.
Qed.

Lemma forallb_permutation {A : Type} (f : A -> bool) l l' :
  Permutation l l' -> forallb f l = forallb f l'.
Proof.
  induction 1; cbn.
  - reflexivity.
  - now rewrite IHPermutation.
  - now destruct (f x), (f y).
  - congruence.
Qed.

(** How the report writer ends. *)
Lemma write_report_result args st w :
  result (write_report args st w)
  = if all_renderable (usage_by_repo st) then inr tt else inl AttributeError.
Proof.
  unfold write_report, with_open, all_renderable. cbn [result].
  rewrite (forallb_permutation _ _ _ (sorted_permutation (usage_by_repo st))).
  match goal with
  | |- result (?m w) = ?r => assert (yields m r) as Hy
  end.
  { eapply yields_returned.
    - unfold write_header.
      repeat (eapply yields_returned; [apply yields_write|]).
      apply yields_write.
    - destruct (usage_by_repo st) as [|entry rest] eqn:E.
      + cbn. apply yields_write.
      + cbn [length Nat.ltb Nat.leb].
        repeat (eapply yields_returned; [apply yields_write|]).
        apply (yields_for_each write_repository
                 (fun entry => forallb renderable (snd entry)) AttributeError).
        intros [repo instances]. apply yields_repository. }
  apply Hy.
Qed.

End Writer.

Section Ending.

Context {P : Platform}.

(** The events of [main] once a token is given. *)
Lemma main_trace args w :
  no_token (token args) = false ->
  let searched := search_for_action (org args) (action args) (credential_of args)
                    (broad_search args) w in
  trace (main args w)
  = (trace searched
       ++ match result searched with
          | inl _ => []
          | inr items =>
              let scanned := scan args (credential_of args) items (final searched) in
              let st := absorb_all (scan_log args (credential_of args) items
                                      (final searched)) (mkScan [] 0 0) in
              let reported := write_report args st (final scanned) in
              EvPrint ("Found " ++ str_of_nat (length items)
                         ++ " workflow files to analyze")
                :: trace scanned ++ trace reported
                ++ match result reported with
                   | inl _ => []
                   | inr _ =>
                       [ EvPrint (newline ++ "Scan complete! Report written to "
                                    ++ output args);
                         EvPrint ("Found " ++ str_of_nat (total_usages st)
                                    ++ " instances of " ++ action args ++ " across "
                                    ++ str_of_nat (length (usage_by_repo st))
                                    ++ " repositories") ]
                   end
          end)%list.
Proof.
  intros Htoken. unfold main, credential_of. rewrite Htoken.
  cbn -[search_for_action scan write_report str_of_nat].
  destruct (result (search_for_action _ _ _ _ w)) as [e|items];
    [cbn; now rewrite app_nil_r|].
  cbn -[search_for_action scan write_report str_of_nat scan_log absorb_all].
  rewrite scan_run.
  cbn -[search_for_action scan write_report str_of_nat scan_log absorb_all].
  destruct (result (write_report args _ _)) as [e|[]];
    cbn -[search_for_action scan write_report str_of_nat scan_log absorb_all];
    rewrite ?app_nil_r, <- ?app_assoc; reflexivity.
Qed.

End Ending.

Lemma requests_of_writes chunks : requests (map EvWrite chunks) = [].
Proof. induction chunks; cbn; auto. Qed.

Lemma pauses_of_writes chunks : pauses (map EvWrite chunks) = [].
Proof. induction chunks; cbn; auto. Qed.

Lemma written_of_writes chunks : written (map EvWrite chunks) = chunks.
Proof. unfold written. induction chunks; cbn; [auto | now f_equal]. Qed.

Lemma written_of_file file chunks :
  written (EvOpen file :: map EvWrite chunks ++ [EvClose]) = chunks.
Proof.
  change (EvOpen file :: map EvWrite chunks ++ [EvClose])%list
    with ([EvOpen file] ++ map EvWrite chunks ++ [EvClose])%list.
  rewrite !written_app, written_of_writes. cbn. apply app_nil_r.
Qed.

Lemma requests_of_file file chunks :
  requests (EvOpen file :: map EvWrite chunks ++ [EvClose]) = [].
Proof.
  change (EvOpen file :: map EvWrite chunks ++ [EvClose])%list
    with ([EvOpen file] ++ map EvWrite chunks ++ [EvClose])%list.
  now rewrite !requests_app, requests_of_writes.
Qed.

Lemma pauses_of_file file chunks :
  pauses (EvOpen file :: map EvWrite chunks ++ [EvClose]) = [].
Proof.
  change (EvOpen file :: map EvWrite chunks ++ [EvClose])%list
    with ([EvOpen file] ++ map EvWrite chunks ++ [EvClose])%list.
  now rewrite !pauses_app, pauses_of_writes.
Qed.

(** X16: without a token, given neither on the command line nor in the
    environment, or given as the empty string, [main] prints the error line
    and exits with status 1: no request is sent and the report file is not
    opened. *)
Theorem missing_credential_aborts (P : Platform) (args : arguments) (w : world) :
  token args = None \/ token args = Some EmptyString ->
  main args w
  = mkRun (inl (SystemExit 1)) w
      [ EvPrint "Error: GitHub token is required. Set GITHUB_TOKEN environment variable or use --token." ]
  /\ exit_status (result (main args w)) = 1%Z
  /\ requests (trace (main args w)) = []
  /\ forall e, In e (trace (main args w)) -> is_file_event e = false.
Proof.
  intros Htoken.
  assert (no_token (token args) = true) as Hno
    by (destruct Htoken as [-> | ->]; reflexivity).
  unfold main. rewrite Hno. cbn. repeat split.
  intros e [<-|[]]. reflexivity.
Qed.

(** A run whose token is the empty string. *)
Lemma missing_credential_aborts_witness :
  exit_status (result (@main Fixture.offline Cases.empty_token_args Fixture.initial))
  = 1%Z
  /\ requests (trace (@main Fixture.offline Cases.empty_token_args Fixture.initial))
     = [].
Proof.
  pose proof (missing_credential_aborts Fixture.offline Cases.empty_token_args
                Fixture.initial (or_intror eq_refl)) as [_ [Hexit [Hreq _]]].
  exact (conj Hexit Hreq).
Defined.

(** X17: a run with a token sends the search request and then, when the
    search returned, one content request per candidate in the order of the
    results, and no other request: nothing is retried, and writing the
    report sends nothing. *)
Theorem main_requests (P : Platform) (args : arguments) (w : world) :
  no_token (token args) = false ->
  let credential := credential_of args in
  let searched := search_for_action (org args) (action args) credential
                    (broad_search args) w in
  requests (trace (main args w))
  = EvGet (search_url (org args) (action args) (broad_search args))
          (request_headers credential)
      :: match result searched with
         | inl _ => []
         | inr items =>
             map (fun item => EvGet (item_url item) (request_headers credential))
                 items
         end.
Proof.
  intros Htoken. cbn zeta. rewrite (main_trace args w Htoken). cbn zeta.
  destruct (search_observed P (org args) (action args) (credential_of args)
              (broad_search args) w) as [Hs _]. cbn zeta in Hs.
  rewrite requests_app, Hs. cbn [app]. f_equal.
  destruct (result (search_for_action _ _ _ _ w)) as [e|items]; [reflexivity|].
  change (?e :: ?l)%list with ([e] ++ l)%list.
  rewrite !requests_app.
  destruct (scan_requests_each_candidate_once_helper P args (credential_of args) items
              (final (search_for_action (org args) (action args) (credential_of args)
                        (broad_search args) w))) as [Hscan _].
  rewrite Hscan.
  destruct (write_report_events args
              (absorb_all (scan_log args (credential_of args) items
                             (final (search_for_action (org args) (action args)
                                       (credential_of args) (broad_search args) w)))
                          (mkScan [] 0 0))
              (final (scan args (credential_of args) items
                        (final (search_for_action (org args) (action args)
                                  (credential_of args) (broad_search args) w)))))
    as [chunks Hw].
  rewrite Hw.
  change (EvOpen (output args) :: map EvWrite chunks ++ [EvClose])%list
    with ([EvOpen (output args)] ++ map EvWrite chunks ++ [EvClose])%list.
  rewrite !requests_app, requests_of_writes. cbn [requests filter is_request app].
  destruct (result (write_report _ _ _)); cbn; now rewrite app_nil_r.
Qed.

(** A run that finds two candidates: three requests. *)
Lemma main_requests_witness :
  requests (trace (@main Service.both_files_match Service.args Fixture.initial))
  = [ EvGet "https://api.github.com/search/code?q=org:acme path:.github/workflows/ a/b&per_page=100"
            (request_headers Service.token);
      EvGet "https://api.test/zeta/ci" (request_headers Service.token);
      EvGet "https://api.test/alpha/build" (request_headers Service.token) ].
Proof.
  exact (main_requests Service.both_files_match Service.args Fixture.initial eq_refl).
Defined.

(** X18: the report writer opens the output file, writes chunks and closes
    the file, on every exit; it returns exactly when every stored entry is
    renderable, and then the chunks are the header and the body; otherwise
    the [items()] call on a configuration block that is no mapping raises
    [AttributeError] out of the writer, after the file was closed. *)
Theorem report_writer_outcome (P : Platform) (args : arguments) (st : scan_state)
    (w : world) :
  exists chunks,
    trace (write_report args st w)
    = (EvOpen (output args) :: map EvWrite chunks ++ [EvClose])%list
    /\ final (write_report args st w) = w
    /\ result (write_report args st w)
       = (if all_renderable (usage_by_repo st) then inr tt else inl AttributeError)
    /\ (all_renderable (usage_by_repo st) = true ->
        chunks = app (header_chunks args (length (usage_by_repo st)) (total_usages st))
                     (report_body (sorted (usage_by_repo st)))).
Proof.
  destruct (write_report_events args st w) as [chunks Hc].
  exists chunks. split; [exact Hc|]. split; [|split].
  - unfold write_report, with_open. cbn [final].
    match goal with
    | |- final (?m w) = w => assert (forall w', final (m w') = w') as Hf
    end; [|apply Hf].
    assert (forall (A : Type) (m : IO A), (forall w', final (m w') = w') ->
              forall (B : Type) (k : A -> IO B),
                (forall a w', final (k a w') = w') ->
                forall w', final (bind m k w') = w') as Hbind.
    { intros A m Hm B k Hk w'. cbn. specialize (Hm w').
      destruct (result (m w')); cbn; [exact Hm | now rewrite Hk]. }
    assert (forall (A : Type) (body : unit -> A -> IO unit) xs,
              (forall x w', final (body tt x w') = w') ->
              forall w', final (for_each body xs tt w') = w') as Hfor.
    { intros A body xs Hbody. induction xs as [|x rest IH]; cbn [for_each].
      - reflexivity.
      - apply Hbind; [apply Hbody | intros []; exact IH]. }
    assert (forall u w', final (write_inputs u w') = w') as Hin.
    { intros u. unfold write_inputs. destruct (truthy _); [|reflexivity].
      apply Hbind; [reflexivity | intros _].
      apply Hbind; [reflexivity | intros parameters].
      apply Hfor. reflexivity. }
    assert (forall x w', final (write_instance tt x w') = w') as Hinst.
    { intros [i u]. unfold write_instance.
      repeat (apply Hbind; [reflexivity | intros _]).
      apply Hbind; [apply Hin | reflexivity]. }
    assert (forall x w', final (write_repository tt x w') = w') as Hrepo.
    { intros [repo instances]. unfold write_repository.
      repeat (apply Hbind; [reflexivity | intros _]).
      apply Hbind; [apply Hfor; exact Hinst | reflexivity]. }
    apply Hbind.
    + unfold write_header.
      repeat (apply Hbind; [reflexivity | intros _]). reflexivity.
    + intros _. destruct (0 <? length (usage_by_repo st))%nat; [|reflexivity].
      repeat (apply Hbind; [reflexivity | intros _]).
      apply Hfor. exact Hrepo.
  - apply write_report_result.
  - intros Hall. pose proof (write_report_result args st w) as Hr.
    rewrite Hall in Hr. rewrite (write_report_run args st w Hr) in Hc.
    cbn [trace] in Hc. apply (f_equal written) in Hc.
    rewrite !written_of_file in Hc. now symmetry.
Qed.

(** X19: when the scan stored an entry whose configuration block is a
    non-empty value other than a mapping, the run ends with the uncaught
    [AttributeError] of the report writer: status 1, the report file left
    opened and closed but unfinished, and no completion line printed. *)
Theorem unrenderable_entry_fails_run (P : Platform) (args : arguments) (w : world)
    (items : list candidate) :
  no_token (token args) = false ->
  let credential := credential_of args in
  let searched := search_for_action (org args) (action args) credential
                    (broad_search args) w in
  result searched = inr items ->
  all_renderable
    (usage_by_repo (absorb_all (scan_log args credential items (final searched))
                               (mkScan [] 0 0))) = false ->
  result (main args w) = inl AttributeError
  /\ exit_status (result (main args w)) = 1%Z
  /\ In (EvOpen (output args)) (trace (main args w))
  /\ last (trace (main args w)) (EvPrint EmptyString) = EvClose.
Proof.
  intros Htoken credential searched Hsearch Hbad.
  pose proof (main_result args w Htoken) as Hres. cbn zeta in Hres.
  fold credential in Hres. fold searched in Hres. rewrite Hsearch in Hres.
  rewrite scan_run in Hres. cbn [result final] in Hres.
  rewrite write_report_result, Hbad in Hres.
  pose proof (main_trace args w Htoken) as Htr. cbn zeta in Htr.
  fold credential in Htr. fold searched in Htr. rewrite Hsearch in Htr.
  rewrite write_report_result, Hbad in Htr.
  destruct (write_report_events args
              (absorb_all (scan_log args credential items (final searched))
                          (mkScan [] 0 0))
              (final (scan args credential items (final searched))))
    as [chunks Hw].
  rewrite Hw in Htr.
  split; [exact Hres|]. split; [now rewrite Hres|]. rewrite Htr. split.
  - apply in_or_app. right. right. apply in_or_app. right.
    apply in_or_app. left. left. reflexivity.
  - rewrite app_nil_r.
    change (?a :: ?l ++ (?o :: ?m ++ [EvClose]))%list
      with ((a :: l) ++ (o :: m) ++ [EvClose])%list.
    rewrite !app_assoc. apply last_last.
Qed.

(** The search finds one workflow whose matching step gives [with] a
    string. *)
Lemma unrenderable_entry_fails_run_witness :
  result (@main Cases.text_inputs_service Service.args Fixture.initial)
  = inl AttributeError
  /\ exit_status (result (@main Cases.text_inputs_service Service.args
                            Fixture.initial)) = 1%Z.
Proof.
  pose proof (unrenderable_entry_fails_run Cases.text_inputs_service Service.args
                Fixture.initial [Service.first_item] eq_refl eq_refl eq_refl)
    as [Hres [Hexit _]].
  exact (conj Hres Hexit).
Defined.

(** X20: when the search returns no candidate (no result, a rate-limit
    answer, or an error status), the run still writes the report: the header
    with both counts at zero followed by the no-instances line, and the
    process ends with status 0 after the single search request. *)
Theorem empty_search_writes_empty_report (P : Platform) (args : arguments)
    (w : world) :
  no_token (token args) = false ->
  result (search_for_action (org args) (action args) (credential_of args)
            (broad_search args) w) = inr [] ->
  exit_status (result (main args w)) = 0%Z
  /\ written (trace (main args w))
     = app (header_chunks args 0 0) [no_instances_line]
  /\ requests (trace (main args w))
     = [ EvGet (search_url (org args) (action args) (broad_search args))
               (request_headers (credential_of args)) ]
  /\ pauses (trace (main args w)) = [].
Proof.
  intros Htoken Hsearch.
  pose proof (main_result args w Htoken) as Hres. cbn zeta in Hres.
  rewrite Hsearch in Hres. rewrite scan_run in Hres. cbn [result final] in Hres.
  pose proof (main_trace args w Htoken) as Htr. cbn zeta in Htr.
  rewrite Hsearch in Htr.
  destruct (search_observed P (org args) (action args) (credential_of args)
              (broad_search args) w) as [Hreq [Hpause [Hwritten _]]].
  cbn zeta in Hreq, Hpause, Hwritten.
  pose proof (fun w' => write_report_returns args (mkScan [] 0 0) w' (Forall_nil _))
    as Hw.
  cbn [scan_log absorb_all] in Hres, Htr.
  rewrite Hw in Hres. rewrite Hw, (write_report_run _ _ _ (Hw _)) in Htr.
  rewrite scan_run in Htr. cbn [trace scan_trace length usage_by_repo total_usages] in Htr.
  split; [now rewrite Hres|]. rewrite Htr.
  change (EvPrint ?s :: [] ++ ?l)%list with ([EvPrint s] ++ l)%list.
  rewrite !written_app, !requests_app, !pauses_app, Hreq, Hpause, Hwritten.
  rewrite written_of_file, requests_of_file, pauses_of_file.
  change (sorted []) with (@nil (string * list usage)).
  cbn. repeat split.
Qed.

(** The search answer has no [items] member. *)
Lemma empty_search_writes_empty_report_witness :
  exit_status (result (@main Cases.no_results Service.args Fixture.initial)) = 0%Z
  /\ written (trace (@main Cases.no_results Service.args Fixture.initial))
     = [ "Usage Report for 'a/b' in acme" ++ newline;
         "===============================================" ++ newline ++ newline;
         "Repositories using this action: 0" ++ newline;
         "Total usages found: 0" ++ newline ++ newline;
         "No instances of this action were found." ++ newline ].
Proof.
  pose proof (empty_search_writes_empty_report Cases.no_results Service.args
                Fixture.initial eq_refl eq_refl) as [Hexit [Hwritten _]].
  exact (conj Hexit Hwritten).
Defined.
